(** * Leopard: object model, environments, AST printing and the REPL loop

    A shallow embedding of the Go sources of the Leopard interpreter
    (packages [token], [ast], [object] and [repl]) together with the
    properties of the specification that concern them.

    Conventions of the embedding:
    - a Go [string] is a [string] (a sequence of bytes);
    - an [int64] is a [Z] in the range of [int64_range], a [uint64] a [Z]
      reduced modulo [2^64];
    - a [bytes.Buffer] is the text written so far;
    - a pointer to an [Environment] is an address in a heap of environments,
      because environments are shared and mutated in place;
    - an interface or pointer field that the code dereferences without a nil
      check is a plain value, a field that the code tests against nil is an
      [option];
    - the order in which [range] visits a Go map is not fixed by the
      language: it is supplied from outside, as a function that reorders
      the entries. *)

From Stdlib Require Import ZArith Ascii String List Permutation.
From Stdlib Require Import Numbers.DecimalString Numbers.DecimalZ
  Numbers.DecimalPos.
From stdpp Require Import base option list gmap strings fin_maps.

Open Scope string_scope.

Set Warnings "-register-all".

(** ** The parts of the Go standard library that the sources call *)

Module golib.

(** [bytes.Buffer]: [WriteString] appends, [String] reads the text back. *)
Definition Buffer := string.
Definition NewBuffer : Buffer := "".
Definition WriteString (out : Buffer) (s : string) : Buffer := out +:+ s.
Definition BufferString (out : Buffer) : string := out.

(** [strings.Join(elems, sep)]: nothing for no element, the element itself
    for one, otherwise the first element followed by [sep] and the next
    element, for each further element. *)
Definition Join (elems : list string) (sep : string) : string :=
  match elems with
  | [] => ""
  | [e] => e
  | e :: rest =>
      fold_left (fun b s => WriteString (WriteString b sep) s) rest
                (WriteString NewBuffer e)
  end.

(** [fmt.Sprintf("%d", v)]: the decimal digits of [v], after a minus sign
    when [v] is negative. *)
Definition Sprintf_d (v : Z) : string := NilZero.string_of_int (Z.to_int v).

(** [fmt.Sprintf("%t", b)]. *)
Definition Sprintf_t (b : bool) : string := if b then "true" else "false".

(** Conversion of an [int64] to [uint64]: the same 64 bits. *)
Definition uint64 (v : Z) : Z := v mod 2 ^ 64.

Definition int64_range (v : Z) : Prop := (- 2 ^ 63 <= v < 2 ^ 63)%Z.

(** [hash/fnv], [New64a]: the hash starts at the offset basis; [Write]
    takes the bytes one at a time, xors the byte into the hash and
    multiplies by the prime, on 64 bits; [Sum64] reads the hash. *)
Definition offset64 : Z := 14695981039346656037.
Definition prime64 : Z := 1099511628211.

Definition byte_of (c : ascii) : Z := Z.of_N (N_of_ascii c).

Definition fnv64a_step (h : Z) (c : ascii) : Z :=
  (Z.lxor h (byte_of c) * prime64) mod 2 ^ 64.

Fixpoint fnv64a_write (h : Z) (s : string) : Z :=
  match s with
  | EmptyString => h
  | String c s' => fnv64a_write (fnv64a_step h c) s'
  end.

Definition fnv64a (s : string) : Z := fnv64a_write offset64 s.

End golib.

(** ** Package token *)

Module token.

Definition TokenType := string.

Record Token := { Type_ : TokenType; Literal : string }.

Definition ILLEGAL : TokenType := "ILLEGAL".
Definition EOF : TokenType := "EOF".
Definition IDENT : TokenType := "IDENT".
Definition INT : TokenType := "INT".
Definition STRING : TokenType := "STRING".
Definition ASSIGN : TokenType := "=".
Definition PLUS : TokenType := "+".
Definition MINUS : TokenType := "-".
Definition BANG : TokenType := "!".
Definition ASTERISK : TokenType := "*".
Definition SLASH : TokenType := "/".
Definition LT : TokenType := "<".
Definition GT : TokenType := ">".
Definition EQ : TokenType := "==".
Definition NOT_EQ : TokenType := "!=".
Definition COMMA : TokenType := ",".
Definition SEMICOLON : TokenType := ";".
Definition COLON : TokenType := ":".
Definition LPAREN : TokenType := "(".
Definition RPAREN : TokenType := ")".
Definition LBRACE : TokenType := "{".
Definition RBRACE : TokenType := "}".
Definition LBRACKET : TokenType := "[".
Definition RBRACKET : TokenType := "]".
Definition FUNCTION : TokenType := "FUNCTION".
Definition LET : TokenType := "LET".
Definition TRUE : TokenType := "TRUE".
Definition FALSE : TokenType := "FALSE".
Definition IF : TokenType := "IF".
Definition ELSE : TokenType := "ELSE".
Definition RETURN : TokenType := "RETURN".

(** [keywords]: the Go map from the spelling of a keyword to its token
    type. *)
Definition keywords : gmap string TokenType :=
  list_to_map
    [("fn", FUNCTION); ("let", LET); ("true", TRUE); ("false", FALSE);
     ("if", IF); ("else", ELSE); ("return", RETURN)].

Definition LookupIdent (ident : string) : TokenType :=
  match keywords !! ident with
  | Some tok => tok
  | None => IDENT
  end.

End token.

(** ** Package ast *)

Module ast.
Import golib.

(** [Identifier] is a struct of its own: it is an expression, the name of
    a [let] and a parameter of a function. *)
Record Identifier := { IdentToken : token.Token; IdentValue : string }.

(** The node variants. [Value] of a [let], [ReturnValue] of a [return],
    [Expression] of an expression statement and [Alternative] of an [if]
    are tested against nil by the code; [Pairs] of a hash literal is a Go
    map, given here by its entries. *)
Inductive Expression : Type :=
| EIdentifier (i : Identifier)
| IntegerLiteral (Token : token.Token) (Value : Z)
| PrefixExpression (Token : token.Token) (Operator : string)
                   (Right : Expression)
| InfixExpression (Token : token.Token) (Left : Expression)
                  (Operator : string) (Right : Expression)
| Boolean (Token : token.Token) (Value : bool)
| IfExpression (Token : token.Token) (Condition : Expression)
               (Consequence : BlockStatement)
               (Alternative : option BlockStatement)
| FunctionLiteral (Token : token.Token) (Parameters : list Identifier)
                  (Body : BlockStatement)
| CallExpression (Token : token.Token) (Function : Expression)
                 (Arguments : list Expression)
| StringLiteral (Token : token.Token) (Value : string)
| ArrayLiteral (Token : token.Token) (Elements : list Expression)
| IndexExpression (Token : token.Token) (Left : Expression)
                  (Index : Expression)
| HashLiteral (Token : token.Token) (Pairs : list (Expression * Expression))
with Statement : Type :=
| LetStatement (Token : token.Token) (Name : Identifier)
               (Value : option Expression)
| ReturnStatement (Token : token.Token) (ReturnValue : option Expression)
| ExpressionStatement (Token : token.Token) (Expr : option Expression)
| SBlock (b : BlockStatement)
with BlockStatement : Type :=
| Block (Token : token.Token) (Statements : list Statement).

Record Program := { Statements : list Statement }.

Definition Identifier_String (i : Identifier) : string := IdentValue i.

Section String.

(** The order in which [range] visits the entries of a map, as a
    reordering of the texts appended for the entries (the text appended
    for an entry depends on the entry alone). *)
Variable range : list string -> list string.

Fixpoint Expression_String (e : Expression) : string :=
  match e with
  | EIdentifier i => Identifier_String i
  | IntegerLiteral tok _ => token.Literal tok
  | PrefixExpression _ op right_ =>
      let out := NewBuffer in
      let out := WriteString out "(" in
      let out := WriteString out op in
      let out := WriteString out (Expression_String right_) in
      let out := WriteString out ")" in
      BufferString out
  | InfixExpression _ left_ op right_ =>
      let out := NewBuffer in
      let out := WriteString out "(" in
      let out := WriteString out (Expression_String left_) in
      let out := WriteString out (" " +:+ op +:+ " ") in
      let out := WriteString out (Expression_String right_) in
      let out := WriteString out ")" in
      BufferString out
  | Boolean tok _ => token.Literal tok
  | IfExpression _ cond consequence alt =>
      let out := NewBuffer in
      let out := WriteString out "if" in
      let out := WriteString out (Expression_String cond) in
      let out := WriteString out " " in
      let out := WriteString out (BlockStatement_String consequence) in
      let out :=
        match alt with
        | Some a =>
            let out := WriteString out "else" in
            WriteString out (BlockStatement_String a)
        | None => out
        end in
      BufferString out
  | FunctionLiteral tok params body =>
      let out := NewBuffer in
      let params := map Identifier_String params in
      let out := WriteString out (token.Literal tok) in
      let out := WriteString out "(" in
      let out := WriteString out (Join params ", ") in
      let out := WriteString out ") " in
      let out := WriteString out (BlockStatement_String body) in
      BufferString out
  | CallExpression _ fn args =>
      let out := NewBuffer in
      let args := map Expression_String args in
      let out := WriteString out (Expression_String fn) in
      let out := WriteString out "(" in
      let out := WriteString out (Join args ", ") in
      let out := WriteString out ")" in
      BufferString out
  | StringLiteral tok _ => token.Literal tok
  | ArrayLiteral _ els =>
      let out := NewBuffer in
      let elements := map Expression_String els in
      let out := WriteString out "[" in
      let out := WriteString out (Join elements ", ") in
      let out := WriteString out "]" in
      BufferString out
  | IndexExpression _ left_ index =>
      let out := NewBuffer in
      let out := WriteString out "(" in
      let out := WriteString out (Expression_String left_) in
      let out := WriteString out "[" in
      let out := WriteString out (Expression_String index) in
      let out := WriteString out "])" in
      BufferString out
  | HashLiteral _ pairs =>
      let out := NewBuffer in
      let pairs :=
        range (map (fun kv => Expression_String (fst kv) +:+ ":"
                               +:+ Expression_String (snd kv)) pairs) in
      let out := WriteString out "{" in
      let out := WriteString out (Join pairs ", ") in
      let out := WriteString out "}" in
      BufferString out
  end
with Statement_String (s : Statement) : string :=
  match s with
  | LetStatement tok name value =>
      let out := NewBuffer in
      let out := WriteString out (token.Literal tok +:+ " ") in
      let out := WriteString out (Identifier_String name) in
      let out := WriteString out " = " in
      let out :=
        match value with
        | Some v => WriteString out (Expression_String v)
        | None => out
        end in
      let out := WriteString out ";" in
      BufferString out
  | ReturnStatement tok value =>
      let out := NewBuffer in
      let out := WriteString out (token.Literal tok +:+ " ") in
      let out :=
        match value with
        | Some v => WriteString out (Expression_String v)
        | None => out
        end in
      let out := WriteString out ";" in
      BufferString out
  | ExpressionStatement _ e =>
      match e with
      | Some e => Expression_String e
      | None => ""
      end
  | SBlock b => BlockStatement_String b
  end
with BlockStatement_String (b : BlockStatement) : string :=
  match b with
  | Block _ stmts =>
      fold_left WriteString (map Statement_String stmts) NewBuffer
  end.

Definition Program_String (p : Program) : string :=
  fold_left WriteString (map Statement_String (Statements p)) NewBuffer.

End String.

End ast.

(** ** Package object *)

Module object.
Import golib.

Definition ObjectType := string.

Definition INTEGER_OBJ : ObjectType := "INTEGER".
Definition BOOLEAN_OBJ : ObjectType := "BOOLEAN".
Definition NULL_OBJ : ObjectType := "NULL".
Definition RETURN_VALUE_OBJ : ObjectType := "RETURN_VALUE".
Definition ERROR_OBJ : ObjectType := "ERROR".
Definition FUNCTION_OBJ : ObjectType := "FUNCTION".
Definition STRING_OBJ : ObjectType := "STRING".
Definition BUILTIN_OBJ : ObjectType := "BUILTIN".
Definition ARRAY_OBJ : ObjectType := "ARRAY".
Definition HASH_OBJ : ObjectType := "HASH".

(** A pointer to an [Environment]: an address in the heap of environments. *)
Abbreviation addr := nat (only parsing).

(** A [BuiltinFunction] is a reference to native code; it is given by the
    name of the built-in. *)
Definition BuiltinFunction := string.

Record HashKey := { HashKey_Type : ObjectType; HashKey_Value : Z }.

(** The object variants. [Pairs] of a [Hash] is a Go map from [HashKey]
    to [HashPair], given here by its entries. *)
Inductive Object : Type :=
| Integer (Value : Z)
| Boolean (Value : bool)
| Null
| ReturnValue (Value : Object)
| Error (Message : string)
| Function (Parameters : list ast.Identifier) (Body : ast.BlockStatement)
           (Env : option addr)
| String_ (Value : string)
| Builtin (Fn : BuiltinFunction)
| Array (Elements : list Object)
| Hash (Pairs : list (HashKey * HashPair))
with HashPair : Type :=
| MkHashPair (Key : Object) (Value : Object).

Definition Type_ (o : Object) : ObjectType :=
  match o with
  | Integer _ => INTEGER_OBJ
  | Boolean _ => BOOLEAN_OBJ
  | Null => NULL_OBJ
  | ReturnValue _ => RETURN_VALUE_OBJ
  | Error _ => ERROR_OBJ
  | Function _ _ _ => FUNCTION_OBJ
  | String_ _ => STRING_OBJ
  | Builtin _ => BUILTIN_OBJ
  | Array _ => ARRAY_OBJ
  | Hash _ => HASH_OBJ
  end.

Section Inspect.

(** The order in which [range] visits the entries of a map, as in
    [ast.Expression_String]. *)
Variable range : list string -> list string.

Fixpoint Inspect (o : Object) : string :=
  match o with
  | Integer v => Sprintf_d v
  | Boolean b => Sprintf_t b
  | Null => "null"
  | ReturnValue v => Inspect v
  | Error m => "ERROR: " +:+ m
  | Function params body _ =>
      let out := NewBuffer in
      let params := map ast.Identifier_String params in
      let out := WriteString out "fn" in
      let out := WriteString out "(" in
      let out := WriteString out (Join params ", ") in
      let out := WriteString out (") {" +:+ String "010" "") in
      let out := WriteString out (ast.BlockStatement_String range body) in
      let out := WriteString out (String "010" "}") in
      BufferString out
  | String_ v => v
  | Builtin _ => "builtin function"
  | Array els =>
      let out := NewBuffer in
      let elements := map Inspect els in
      let out := WriteString out "[" in
      let out := WriteString out (Join elements ", ") in
      let out := WriteString out "]" in
      BufferString out
  | Hash pairs =>
      let out := NewBuffer in
      let pairs :=
        range (map (fun kp =>
                      match snd kp with
                      | MkHashPair k v => Inspect k +:+ ": " +:+ Inspect v
                      end) pairs) in
      let out := WriteString out "{" in
      let out := WriteString out (Join pairs ", ") in
      let out := WriteString out "}" in
      BufferString out
  end.

End Inspect.

(** The three implementations of [Hashable]. *)
Definition Boolean_HashKey (Value : bool) : HashKey :=
  let value := if Value then 1%Z else 0%Z in
  {| HashKey_Type := Type_ (Boolean Value); HashKey_Value := value |}.

Definition Integer_HashKey (Value : Z) : HashKey :=
  {| HashKey_Type := Type_ (Integer Value); HashKey_Value := uint64 Value |}.

Definition String_HashKey (Value : string) : HashKey :=
  {| HashKey_Type := Type_ (String_ Value); HashKey_Value := fnv64a Value |}.

(** [o.(Hashable)] followed by [HashKey()]: [None] for the variants that
    do not implement [Hashable]. *)
Definition HashKey_of (o : Object) : option HashKey :=
  match o with
  | Boolean b => Some (Boolean_HashKey b)
  | Integer v => Some (Integer_HashKey v)
  | String_ s => Some (String_HashKey s)
  | _ => None
  end.

(** *** Environments *)

(** A value of interface type [Object] that the code stores and returns
    without looking at it: nil or an object. *)
Abbreviation ObjectRef := (option Object) (only parsing).

Record Environment := {
  store : gmap string ObjectRef;
  outer : option addr
}.

(** The environments allocated so far, by address. *)
Abbreviation Heap := (list Environment) (only parsing).

Definition NewEnvironment (h : Heap) : Heap * addr :=
  let s : gmap string ObjectRef := ∅ in
  ((h ++ [{| store := s; outer := None |}])%list, length h).

Definition NewEnclosedEnvironment (h : Heap) (outer_ : option addr)
  : Heap * addr :=
  let '(h, env) := NewEnvironment h in
  (alter (fun e => {| store := store e; outer := outer_ |}) env h, env).

(** [Get] calls itself on the outer environment. [fuel] bounds the number
    of calls; the result is [None] when the bound is reached or an address
    is not allocated, and [Some (obj, ok)] when [Get] returns. *)
Fixpoint Get_fuel (fuel : nat) (h : Heap) (e : addr) (name : string)
  : option (ObjectRef * bool) :=
  match fuel with
  | O => None
  | S fuel =>
      env ← h !! e;
      let '(obj, ok) :=
        match store env !! name with
        | Some obj => (obj, true)
        | None => (None, false)
        end in
      if negb ok && bool_decide (outer env ≠ None) then
        o ← outer env; Get_fuel fuel h o name
      else Some (obj, ok)
  end.

(** An outer environment is allocated before the environments enclosed in
    it, so [S e] calls are enough from the environment at address [e]. *)
Definition Get (h : Heap) (e : addr) (name : string)
  : option (ObjectRef * bool) :=
  Get_fuel (S e) h e name.

Definition Set_ (h : Heap) (e : addr) (name : string) (val : ObjectRef)
  : Heap * ObjectRef :=
  (alter (fun env => {| store := <[name := val]> (store env);
                        outer := outer env |}) e h, val).

End object.

(** ** Package repl *)

Module repl.
Import golib object.

Definition PROMPT : string := ">> ".

Definition newline : string := String "010" "".
Definition tab : string := String "009" "".

(** The writer [out] is the text written to it so far. *)
Definition printParserErrors (out : Buffer) (errors : list string) : Buffer :=
  let out := WriteString out ("Parser errors:" +:+ newline) in
  fold_left (fun out msg => WriteString out (tab +:+ msg +:+ newline))
            errors out.

Section Start.

Variable range : list string -> list string.

(** The lexer, the parser and the evaluator are other packages.
    [ParseProgram line] stands for the program and the diagnostics of a
    new parser on a new lexer on [line]; [Eval program env h] for the
    result of the evaluator (nil or an object) and the heap of
    environments that it leaves. *)
Variable ParseProgram : string -> ast.Program * list string.
Variable Eval : ast.Program -> addr -> Heap -> option Object * Heap.

(** The loop of [Start] on the lines that the scanner still has to
    deliver: the prompt is written before the scanner is asked for a
    line, and the loop returns when there is none. *)
Fixpoint loop (lines : list string) (env : addr) (h : Heap) (out : Buffer)
  : Heap * Buffer :=
  let out := WriteString out PROMPT in
  match lines with
  | [] => (h, out)
  | line :: lines =>
      let '(program, errors) := ParseProgram line in
      if negb (length errors =? 0)%nat then
        let out := printParserErrors out errors in
        loop lines env h out
      else
        let '(evaluated, h) := Eval program env h in
        match evaluated with
        | Some evaluated =>
            let out := WriteString out (Inspect range evaluated) in
            let out := WriteString out newline in
            loop lines env h out
        | None => loop lines env h out
        end
  end.

Definition Start (h : Heap) (in_ : list string) (out : Buffer)
  : Heap * Buffer :=
  let '(h, env) := NewEnvironment h in
  loop in_ env h out.

End Start.

End repl.

(** ** Notions used to state the properties *)

Module props.
Import golib object.

(** The scope chain of the environment at [e]: the stores from the
    innermost environment to the outermost one, which has no outer
    environment. *)
Inductive Chain (h : Heap) : addr -> list (gmap string ObjectRef) -> Prop :=
| Chain_outermost e env :
    h !! e = Some env -> outer env = None -> Chain h e [store env]
| Chain_enclosed e env o c :
    h !! e = Some env -> outer env = Some o -> Chain h o c ->
    Chain h e (store env :: c).

(** The binding of [name] in the first store of a chain that has one. *)
Fixpoint innermost_binding (c : list (gmap string ObjectRef)) (name : string)
  : option ObjectRef :=
  match c with
  | [] => None
  | st :: c =>
      match st !! name with
      | Some v => Some v
      | None => innermost_binding c name
      end
  end.

(** What [Get] returns for the binding found, or for none. *)
Definition Get_result (b : option ObjectRef) : ObjectRef * bool :=
  match b with
  | Some v => (v, true)
  | None => (None, false)
  end.

(** [o] is an outer environment of [e], at any distance. *)
Inductive Outer (h : Heap) : addr -> addr -> Prop :=
| Outer_direct e env o :
    h !! e = Some env -> outer env = Some o -> Outer h e o
| Outer_further e env o o' :
    h !! e = Some env -> outer env = Some o -> Outer h o o' -> Outer h e o'.

(** Heaps that [NewEnvironment] and [NewEnclosedEnvironment] build: the
    outer environment of an environment was allocated before it. *)
Definition heap_wf (h : Heap) : Prop :=
  forall e env o, h !! e = Some env -> outer env = Some o -> o < e.

(** The operations on environments, and their effect on the heap. *)
Inductive Op : Type :=
| OpGet (e : addr) (name : string)
| OpSet (e : addr) (name : string) (val : ObjectRef)
| OpNewEnvironment
| OpNewEnclosedEnvironment (outer_ : option addr).

Definition run (h : Heap) (op : Op) : Heap :=
  match op with
  | OpGet e name => let _ := Get h e name in h
  | OpSet e name val => fst (Set_ h e name val)
  | OpNewEnvironment => fst (NewEnvironment h)
  | OpNewEnclosedEnvironment outer_ => fst (NewEnclosedEnvironment h outer_)
  end.

Definition runs (h : Heap) (ops : list Op) : Heap := fold_left run ops h.

(** An operation is applicable when the environments it names are
    allocated. *)
Definition op_ok (h : Heap) (op : Op) : Prop :=
  match op with
  | OpGet e _ | OpSet e _ _ => e < length h
  | OpNewEnvironment => True
  | OpNewEnclosedEnvironment (Some o) => o < length h
  | OpNewEnclosedEnvironment None => True
  end.

Fixpoint ops_ok (h : Heap) (ops : list Op) : Prop :=
  match ops with
  | [] => True
  | op :: ops => op_ok h op /\ ops_ok (run h op) ops
  end.

(** A visiting order of [range]: every entry is visited once. *)
Definition range_ok (range : list string -> list string) : Prop :=
  forall l, Permutation (range l) l.

(** No hash literal of the node has more than one pair. *)
Fixpoint Expression_small_hashes (e : ast.Expression) : bool :=
  match e with
  | ast.EIdentifier _ | ast.IntegerLiteral _ _ | ast.Boolean _ _
  | ast.StringLiteral _ _ => true
  | ast.PrefixExpression _ _ r => Expression_small_hashes r
  | ast.InfixExpression _ l _ r =>
      Expression_small_hashes l && Expression_small_hashes r
  | ast.IfExpression _ c b alt =>
      Expression_small_hashes c && BlockStatement_small_hashes b
      && match alt with
         | Some a => BlockStatement_small_hashes a
         | None => true
         end
  | ast.FunctionLiteral _ _ body => BlockStatement_small_hashes body
  | ast.CallExpression _ f args =>
      Expression_small_hashes f && forallb Expression_small_hashes args
  | ast.ArrayLiteral _ els => forallb Expression_small_hashes els
  | ast.IndexExpression _ l i =>
      Expression_small_hashes l && Expression_small_hashes i
  | ast.HashLiteral _ pairs =>
      (length pairs <=? 1)%nat
      && forallb (fun kv => Expression_small_hashes (fst kv)
                            && Expression_small_hashes (snd kv)) pairs
  end
with Statement_small_hashes (s : ast.Statement) : bool :=
  match s with
  | ast.LetStatement _ _ (Some v) | ast.ReturnStatement _ (Some v)
  | ast.ExpressionStatement _ (Some v) => Expression_small_hashes v
  | ast.LetStatement _ _ None | ast.ReturnStatement _ None
  | ast.ExpressionStatement _ None => true
  | ast.SBlock b => BlockStatement_small_hashes b
  end
with BlockStatement_small_hashes (b : ast.BlockStatement) : bool :=
  match b with
  | ast.Block _ stmts => forallb Statement_small_hashes stmts
  end.

Definition Program_small_hashes (p : ast.Program) : bool :=
  forallb Statement_small_hashes (ast.Statements p).

(** No hash of the object has more than one pair, and no hash literal in
    the body of a function of the object has. *)
Fixpoint Object_small_hashes (o : Object) : bool :=
  match o with
  | Integer _ | Boolean _ | Null | Error _ | String_ _ | Builtin _ => true
  | ReturnValue v => Object_small_hashes v
  | Function _ body _ => BlockStatement_small_hashes body
  | Array els => forallb Object_small_hashes els
  | Hash pairs =>
      (length pairs <=? 1)%nat
      && forallb (fun kp =>
                    match snd kp with
                    | MkHashPair k v =>
                        Object_small_hashes k && Object_small_hashes v
                    end) pairs
  end.

(** The number that a text denotes in decimal, when it denotes one: digits,
    after a minus sign for a negative number. *)
Definition decimal_value (s : string) : option Z :=
  Z.of_int <$> NilZero.int_of_string s.

(** What a hashable object holds: the value that two equal objects
    share. *)
Inductive Payload : Type :=
| PBool (b : bool)
| PInt (v : Z)
| PString (s : string).

Definition payload (o : Object) : option Payload :=
  match o with
  | Boolean b => Some (PBool b)
  | Integer v => Some (PInt v)
  | String_ s => Some (PString s)
  | _ => None
  end.

(** The variant of an object. *)
Inductive Variant : Type :=
| VInteger | VBoolean | VNull | VReturnValue | VError | VFunction | VString
| VBuiltin | VArray | VHash.

Definition variant (o : Object) : Variant :=
  match o with
  | Integer _ => VInteger
  | Boolean _ => VBoolean
  | Null => VNull
  | ReturnValue _ => VReturnValue
  | Error _ => VError
  | Function _ _ _ => VFunction
  | String_ _ => VString
  | Builtin _ => VBuiltin
  | Array _ => VArray
  | Hash _ => VHash
  end.

(** From the environment at [e], the outer links lead to the environment at
    [o] through environments that do not bind [name] ([e] among them, [o]
    not). *)
Inductive Unbound_until (h : Heap) (name : string) (o : addr)
  : addr -> Prop :=
| Unbound_parent e env :
    h !! e = Some env -> store env !! name = None -> outer env = Some o ->
    Unbound_until h name o e
| Unbound_further e env x :
    h !! e = Some env -> store env !! name = None -> outer env = Some x ->
    Unbound_until h name o x -> Unbound_until h name o e.

(** Reading a text from nesting depth [d]: an open parenthesis goes one
    level deeper, a close parenthesis one level back, and there is no level
    to go back to from depth 0. *)
Fixpoint scan (d : nat) (s : string) : option nat :=
  match s with
  | EmptyString => Some d
  | String c s =>
      if Ascii.eqb c "("%char then scan (S d) s
      else if Ascii.eqb c ")"%char then
             match d with
             | O => None
             | S d => scan d s
             end
           else scan d s
  end.

(** Every close parenthesis of the text closes an open one before it, and
    every open one is closed. *)
Definition balanced (s : string) : Prop := scan 0 s = Some 0.

(** The text has no parenthesis. *)
Fixpoint paren_free (s : string) : bool :=
  match s with
  | EmptyString => true
  | String c s =>
      negb (Ascii.eqb c "("%char) && negb (Ascii.eqb c ")"%char)
      && paren_free s
  end.

(** No name, operator or token literal that [String] writes for the node
    has a parenthesis. *)
Fixpoint Expression_paren_free (e : ast.Expression) : bool :=
  match e with
  | ast.EIdentifier i => paren_free (ast.IdentValue i)
  | ast.IntegerLiteral t _ | ast.Boolean t _ | ast.StringLiteral t _ =>
      paren_free (token.Literal t)
  | ast.PrefixExpression _ op r => paren_free op && Expression_paren_free r
  | ast.InfixExpression _ l op r =>
      Expression_paren_free l && paren_free op && Expression_paren_free r
  | ast.IfExpression _ c b alt =>
      Expression_paren_free c && BlockStatement_paren_free b
      && match alt with
         | Some a => BlockStatement_paren_free a
         | None => true
         end
  | ast.FunctionLiteral t ps body =>
      paren_free (token.Literal t)
      && forallb (fun i => paren_free (ast.IdentValue i)) ps
      && BlockStatement_paren_free body
  | ast.CallExpression _ f args =>
      Expression_paren_free f && forallb Expression_paren_free args
  | ast.ArrayLiteral _ els => forallb Expression_paren_free els
  | ast.IndexExpression _ l i =>
      Expression_paren_free l && Expression_paren_free i
  | ast.HashLiteral _ pairs =>
      forallb (fun kv => Expression_paren_free (fst kv)
                         && Expression_paren_free (snd kv)) pairs
  end
with Statement_paren_free (s : ast.Statement) : bool :=
  match s with
  | ast.LetStatement t n v =>
      paren_free (token.Literal t) && paren_free (ast.IdentValue n)
      && match v with
         | Some e => Expression_paren_free e
         | None => true
         end
  | ast.ReturnStatement t v =>
      paren_free (token.Literal t)
      && match v with
         | Some e => Expression_paren_free e
         | None => true
         end
  | ast.ExpressionStatement _ (Some e) => Expression_paren_free e
  | ast.ExpressionStatement _ None => true
  | ast.SBlock b => BlockStatement_paren_free b
  end
with BlockStatement_paren_free (b : ast.BlockStatement) : bool :=
  match b with
  | ast.Block _ stmts => forallb Statement_paren_free stmts
  end.

Definition Program_paren_free (p : ast.Program) : bool :=
  forallb Statement_paren_free (ast.Statements p).

(** One turn of the REPL on a line, after the prompt: the heap that the
    turn leaves and the text that it writes. *)
Definition turn (range : list string -> list string)
           (ParseProgram : string -> ast.Program * list string)
           (Eval : ast.Program -> addr -> Heap -> option Object * Heap)
           (line : string) (env : addr) (h : Heap) : Heap * string :=
  match ParseProgram line with
  | (program, []) =>
      match Eval program env h with
      | (Some evaluated, h') => (h', Inspect range evaluated +:+ repl.newline)
      | (None, h') => (h', "")
      end
  | (_, errors) =>
      (h, "Parser errors:" +:+ repl.newline
          +:+ String.concat ""
                (map (fun msg => repl.tab +:+ msg +:+ repl.newline) errors))
  end.

(** *** Lexemes, and the syntax that [String] writes *)

Definition is_digit (c : ascii) : bool :=
  let n := nat_of_ascii c in (48 <=? n)%nat && (n <=? 57)%nat.

(** Letters and the underscore. *)
Definition is_letter (c : ascii) : bool :=
  let n := nat_of_ascii c in
  ((97 <=? n)%nat && (n <=? 122)%nat) || ((65 <=? n)%nat && (n <=? 90)%nat)
  || (n =? 95)%nat.

Definition is_word_char (c : ascii) : bool := is_letter c || is_digit c.

(** The characters that end a name, a number or an operator in the text of
    an operator expression. *)
Definition is_delimiter (c : ascii) : bool :=
  Ascii.eqb c " "%char || Ascii.eqb c "("%char || Ascii.eqb c ")"%char
  || Ascii.eqb c "["%char || Ascii.eqb c "]"%char.

Fixpoint all_chars (p : ascii -> bool) (s : string) : bool :=
  match s with
  | EmptyString => true
  | String c s => p c && all_chars p s
  end.

(** A name: a letter, then letters and digits, and not a keyword. *)
Definition ident_ok (s : string) : bool :=
  match s with
  | EmptyString => false
  | String c s' => is_letter c && all_chars is_word_char s'
  end
  && bool_decide (token.LookupIdent s = token.IDENT).

(** The text of a number: digits, one at least. *)
Definition digits_ok (s : string) : bool :=
  match s with
  | EmptyString => false
  | String _ _ => all_chars is_digit s
  end.

Definition prefix_operators : list string := [token.BANG; token.MINUS].

Definition infix_operators : list string :=
  [token.PLUS; token.MINUS; token.ASTERISK; token.SLASH; token.LT; token.GT;
   token.EQ; token.NOT_EQ].

(** The names, numbers, operators and keywords of the node are lexemes of
    the language, and the values of its literals are the values that their
    texts denote. *)
Fixpoint Expression_lexemes (e : ast.Expression) : bool :=
  match e with
  | ast.EIdentifier i => ident_ok (ast.IdentValue i)
  | ast.IntegerLiteral t v =>
      digits_ok (token.Literal t)
      && bool_decide (decimal_value (token.Literal t) = Some v)
  | ast.PrefixExpression _ op r =>
      bool_decide (op ∈ prefix_operators) && Expression_lexemes r
  | ast.InfixExpression _ l op r =>
      Expression_lexemes l && bool_decide (op ∈ infix_operators)
      && Expression_lexemes r
  | ast.Boolean t v =>
      bool_decide (token.Literal t = if v then "true" else "false")
  | ast.IfExpression _ c b alt =>
      Expression_lexemes c && BlockStatement_lexemes b
      && match alt with
         | Some a => BlockStatement_lexemes a
         | None => true
         end
  | ast.FunctionLiteral t ps body =>
      bool_decide (token.Literal t = "fn")
      && forallb (fun i => ident_ok (ast.IdentValue i)) ps
      && BlockStatement_lexemes body
  | ast.CallExpression _ f args =>
      Expression_lexemes f && forallb Expression_lexemes args
  | ast.StringLiteral t v => bool_decide (token.Literal t = v)
  | ast.ArrayLiteral _ els => forallb Expression_lexemes els
  | ast.IndexExpression _ l i => Expression_lexemes l && Expression_lexemes i
  | ast.HashLiteral _ pairs =>
      forallb (fun kv => Expression_lexemes (fst kv)
                         && Expression_lexemes (snd kv)) pairs
  end
with Statement_lexemes (s : ast.Statement) : bool :=
  match s with
  | ast.LetStatement t n v =>
      bool_decide (token.Literal t = "let") && ident_ok (ast.IdentValue n)
      && match v with
         | Some e => Expression_lexemes e
         | None => true
         end
  | ast.ReturnStatement t v =>
      bool_decide (token.Literal t = "return")
      && match v with
         | Some e => Expression_lexemes e
         | None => true
         end
  | ast.ExpressionStatement _ (Some e) => Expression_lexemes e
  | ast.ExpressionStatement _ None => true
  | ast.SBlock b => BlockStatement_lexemes b
  end
with BlockStatement_lexemes (b : ast.BlockStatement) : bool :=
  match b with
  | ast.Block _ stmts => forallb Statement_lexemes stmts
  end.

(** An operator expression: names, numbers and truth values under prefix,
    infix and index operators. *)
Fixpoint operator_expression (e : ast.Expression) : bool :=
  match e with
  | ast.EIdentifier _ | ast.IntegerLiteral _ _ | ast.Boolean _ _ => true
  | ast.PrefixExpression _ _ r => operator_expression r
  | ast.InfixExpression _ l _ r =>
      operator_expression l && operator_expression r
  | ast.IndexExpression _ l i =>
      operator_expression l && operator_expression i
  | _ => false
  end.

(** The syntax of a node: the node without what [String] does not read,
    which is the tokens, but for the literal of the tokens that [String]
    writes. *)
Definition no_token : token.Token :=
  {| token.Type_ := ""; token.Literal := "" |}.

Definition literal_only (t : token.Token) : token.Token :=
  {| token.Type_ := ""; token.Literal := token.Literal t |}.

Definition Identifier_syntax (i : ast.Identifier) : ast.Identifier :=
  {| ast.IdentToken := no_token; ast.IdentValue := ast.IdentValue i |}.

Fixpoint Expression_syntax (e : ast.Expression) : ast.Expression :=
  match e with
  | ast.EIdentifier i => ast.EIdentifier (Identifier_syntax i)
  | ast.IntegerLiteral t v => ast.IntegerLiteral (literal_only t) v
  | ast.PrefixExpression _ op r =>
      ast.PrefixExpression no_token op (Expression_syntax r)
  | ast.InfixExpression _ l op r =>
      ast.InfixExpression no_token (Expression_syntax l) op
                          (Expression_syntax r)
  | ast.Boolean t v => ast.Boolean (literal_only t) v
  | ast.IfExpression _ c b alt =>
      ast.IfExpression no_token (Expression_syntax c)
        (BlockStatement_syntax b)
        (match alt with
         | Some a => Some (BlockStatement_syntax a)
         | None => None
         end)
  | ast.FunctionLiteral t ps body =>
      ast.FunctionLiteral (literal_only t) (map Identifier_syntax ps)
                          (BlockStatement_syntax body)
  | ast.CallExpression _ f args =>
      ast.CallExpression no_token (Expression_syntax f)
                         (map Expression_syntax args)
  | ast.StringLiteral t v => ast.StringLiteral (literal_only t) v
  | ast.ArrayLiteral _ els =>
      ast.ArrayLiteral no_token (map Expression_syntax els)
  | ast.IndexExpression _ l i =>
      ast.IndexExpression no_token (Expression_syntax l)
                          (Expression_syntax i)
  | ast.HashLiteral _ pairs =>
      ast.HashLiteral no_token
        (map (fun kv => (Expression_syntax (fst kv),
                         Expression_syntax (snd kv))) pairs)
  end
with Statement_syntax (s : ast.Statement) : ast.Statement :=
  match s with
  | ast.LetStatement t n v =>
      ast.LetStatement (literal_only t) (Identifier_syntax n)
        (match v with
         | Some e => Some (Expression_syntax e)
         | None => None
         end)
  | ast.ReturnStatement t v =>
      ast.ReturnStatement (literal_only t)
        (match v with
         | Some e => Some (Expression_syntax e)
         | None => None
         end)
  | ast.ExpressionStatement _ v =>
      ast.ExpressionStatement no_token
        (match v with
         | Some e => Some (Expression_syntax e)
         | None => None
         end)
  | ast.SBlock b => ast.SBlock (BlockStatement_syntax b)
  end
with BlockStatement_syntax (b : ast.BlockStatement) : ast.BlockStatement :=
  match b with
  | ast.Block _ stmts => ast.Block no_token (map Statement_syntax stmts)
  end.

(** A text that follows the text of an operand: nothing, or a text that
    starts with a delimiter. *)
Definition closes (x : string) : bool :=
  match x with
  | EmptyString => true
  | String c _ => is_delimiter c
  end.

End props.


(** ** Induction on nodes and on objects *)

Module induction.
Import object.

Section Nodes.

Variable P : ast.Expression -> Prop.
Variable Q : ast.Statement -> Prop.
Variable R : ast.BlockStatement -> Prop.

Definition on_option {A : Type} (S : A -> Prop) (o : option A) : Prop :=
  match o with
  | Some a => S a
  | None => True
  end.

Hypothesis HIdentifier : forall i, P (ast.EIdentifier i).
Hypothesis HIntegerLiteral : forall t v, P (ast.IntegerLiteral t v).
Hypothesis HPrefix : forall t op r, P r -> P (ast.PrefixExpression t op r).
Hypothesis HInfix :
  forall t l op r, P l -> P r -> P (ast.InfixExpression t l op r).
Hypothesis HBoolean : forall t v, P (ast.Boolean t v).
Hypothesis HIf :
  forall t c b alt, P c -> R b -> on_option R alt ->
                    P (ast.IfExpression t c b alt).
Hypothesis HFunctionLiteral :
  forall t ps body, R body -> P (ast.FunctionLiteral t ps body).
Hypothesis HCall :
  forall t f args, P f -> Forall P args -> P (ast.CallExpression t f args).
Hypothesis HStringLiteral : forall t v, P (ast.StringLiteral t v).
Hypothesis HArrayLiteral :
  forall t els, Forall P els -> P (ast.ArrayLiteral t els).
Hypothesis HIndex :
  forall t l i, P l -> P i -> P (ast.IndexExpression t l i).
Hypothesis HHashLiteral :
  forall t pairs, Forall (fun kv => P (fst kv) /\ P (snd kv)) pairs ->
                  P (ast.HashLiteral t pairs).
Hypothesis HLet : forall t n v, on_option P v -> Q (ast.LetStatement t n v).
Hypothesis HReturn : forall t v, on_option P v -> Q (ast.ReturnStatement t v).
Hypothesis HExpressionStatement :
  forall t v, on_option P v -> Q (ast.ExpressionStatement t v).
Hypothesis HSBlock : forall b, R b -> Q (ast.SBlock b).
Hypothesis HBlock : forall t stmts, Forall Q stmts -> R (ast.Block t stmts).

Fixpoint Expression_induction (e : ast.Expression) : P e :=
  match e with
  | ast.EIdentifier i => HIdentifier i
  | ast.IntegerLiteral t v => HIntegerLiteral t v
  | ast.PrefixExpression t op r => HPrefix t op r (Expression_induction r)
  | ast.InfixExpression t l op r =>
      HInfix t l op r (Expression_induction l) (Expression_induction r)
  | ast.Boolean t v => HBoolean t v
  | ast.IfExpression t c b alt =>
      HIf t c b alt (Expression_induction c) (BlockStatement_induction b)
          (match alt return on_option R alt with
           | Some a => BlockStatement_induction a
           | None => I
           end)
  | ast.FunctionLiteral t ps body =>
      HFunctionLiteral t ps body (BlockStatement_induction body)
  | ast.CallExpression t f args =>
      HCall t f args (Expression_induction f)
            ((fix go (l : list ast.Expression) : Forall P l :=
                match l with
                | [] => @List.Forall_nil _ P
                | x :: l =>
                    @List.Forall_cons _ P x l (Expression_induction x) (go l)
                end) args)
  | ast.StringLiteral t v => HStringLiteral t v
  | ast.ArrayLiteral t els =>
      HArrayLiteral t els
            ((fix go (l : list ast.Expression) : Forall P l :=
                match l with
                | [] => @List.Forall_nil _ P
                | x :: l =>
                    @List.Forall_cons _ P x l (Expression_induction x) (go l)
                end) els)
  | ast.IndexExpression t l i =>
      HIndex t l i (Expression_induction l) (Expression_induction i)
  | ast.HashLiteral t pairs =>
      HHashLiteral t pairs
            ((fix go (l : list (ast.Expression * ast.Expression))
                : Forall (fun kv => P (fst kv) /\ P (snd kv)) l :=
                match l with
                | [] => @List.Forall_nil _ _
                | (k, v) :: l =>
                    @List.Forall_cons _ _ (k, v) l
                      (conj (Expression_induction k) (Expression_induction v))
                      (go l)
                end) pairs)
  end
with Statement_induction (s : ast.Statement) : Q s :=
  match s with
  | ast.LetStatement t n v =>
      HLet t n v (match v return on_option P v with
                  | Some e => Expression_induction e
                  | None => I
                  end)
  | ast.ReturnStatement t v =>
      HReturn t v (match v return on_option P v with
                   | Some e => Expression_induction e
                   | None => I
                   end)
  | ast.ExpressionStatement t v =>
      HExpressionStatement t v (match v return on_option P v with
                                | Some e => Expression_induction e
                                | None => I
                                end)
  | ast.SBlock b => HSBlock b (BlockStatement_induction b)
  end
with BlockStatement_induction (b : ast.BlockStatement) : R b :=
  match b with
  | ast.Block t stmts =>
      HBlock t stmts
            ((fix go (l : list ast.Statement) : Forall Q l :=
                match l with
                | [] => @List.Forall_nil _ Q
                | x :: l =>
                    @List.Forall_cons _ Q x l (Statement_induction x) (go l)
                end) stmts)
  end.

Definition Nodes_induction :
  (forall e, P e) /\ (forall s, Q s) /\ (forall b, R b) :=
  conj Expression_induction
       (conj Statement_induction BlockStatement_induction).

End Nodes.

Section Objects.

Variable P : Object -> Prop.

Definition on_pair (kp : HashKey * HashPair) : Prop :=
  match snd kp with
  | MkHashPair k v => P k /\ P v
  end.

Hypothesis HInteger : forall v, P (Integer v).
Hypothesis HBoolean : forall b, P (Boolean b).
Hypothesis HNull : P Null.
Hypothesis HReturnValue : forall v, P v -> P (ReturnValue v).
Hypothesis HError : forall m, P (Error m).
Hypothesis HFunction : forall ps body env, P (Function ps body env).
Hypothesis HString : forall s, P (String_ s).
Hypothesis HBuiltin : forall f, P (Builtin f).
Hypothesis HArray : forall els, Forall P els -> P (Array els).
Hypothesis HHash : forall pairs, Forall on_pair pairs -> P (Hash pairs).

Fixpoint Object_induction (o : Object) : P o :=
  match o with
  | Integer v => HInteger v
  | Boolean b => HBoolean b
  | Null => HNull
  | ReturnValue v => HReturnValue v (Object_induction v)
  | Error m => HError m
  | Function ps body env => HFunction ps body env
  | String_ s => HString s
  | Builtin f => HBuiltin f
  | Array els =>
      HArray els
            ((fix go (l : list Object) : Forall P l :=
                match l with
                | [] => @List.Forall_nil _ P
                | x :: l =>
                    @List.Forall_cons _ P x l (Object_induction x) (go l)
                end) els)
  | Hash pairs =>
      HHash pairs
            ((fix go (l : list (HashKey * HashPair)) : Forall on_pair l :=
                match l with
                | [] => @List.Forall_nil _ on_pair
                | (hk, MkHashPair k v) :: l =>
                    @List.Forall_cons _ on_pair (hk, MkHashPair k v) l
                      (conj (Object_induction k) (Object_induction v))
                      (go l)
                end) pairs)
  end.

End Objects.

End induction.

(** ** Sample trees *)

Module ast_examples.
Import ast.

Definition tok (ty lit : string) : token.Token :=
  {| token.Type_ := ty; token.Literal := lit |}.

Definition ident (name : string) : Expression :=
  EIdentifier {| IdentToken := tok token.IDENT name; IdentValue := name |}.

Definition infix (l : Expression) (op : string) (r : Expression)
  : Expression :=
  InfixExpression (tok op op) l op r.

Definition prefix (op : string) (r : Expression) : Expression :=
  PrefixExpression (tok op op) op r.

Definition int (lit : string) (v : Z) : Expression :=
  IntegerLiteral (tok token.INT lit) v.

(** The tree of [-a * b]. *)
Definition minus_a_times_b : Expression :=
  infix (prefix "-" (ident "a")) "*" (ident "b").

(** The tree of [a + b * c + d / e - f]. *)
Definition long_sum : Expression :=
  infix (infix (infix (ident "a") "+" (infix (ident "b") "*" (ident "c")))
               "+" (infix (ident "d") "/" (ident "e")))
        "-" (ident "f").

(** The tree of [a * [1, 2, 3, 4][b * c] * d]. *)
Definition index_product : Expression :=
  infix (infix (ident "a") "*"
               (IndexExpression (tok token.LBRACKET "[")
                  (ArrayLiteral (tok token.LBRACKET "[")
                     [int "1" 1; int "2" 2; int "3" 3; int "4" 4])
                  (infix (ident "b") "*" (ident "c"))))
        "*" (ident "d").

(** The tree of [if (x) { y } else { z }] and of [if (x) { yelsez }]. *)
Definition if_else : Expression :=
  IfExpression (tok token.IF "if") (ident "x")
    (Block (tok token.LBRACE "{")
       [ExpressionStatement (tok token.IDENT "y") (Some (ident "y"))])
    (Some (Block (tok token.LBRACE "{")
             [ExpressionStatement (tok token.IDENT "z")
                (Some (ident "z"))])).

Definition if_only : Expression :=
  IfExpression (tok token.IF "if") (ident "x")
    (Block (tok token.LBRACE "{")
       [ExpressionStatement (tok token.IDENT "yelsez")
          (Some (ident "yelsez"))])
    None.

(** The tree of [let x = 5;]. *)
Definition let_x : Statement :=
  LetStatement (tok token.LET "let")
    {| IdentToken := tok token.IDENT "x"; IdentValue := "x" |}
    (Some (int "5" 5)).

(** The tree of [{"one": 1, "two": 2}], the pairs in the order of the
    text. *)
Definition two_pairs : Expression :=
  HashLiteral (tok token.LBRACE "{")
    [(StringLiteral (tok token.STRING "one") "one", int "1" 1);
     (StringLiteral (tok token.STRING "two") "two", int "2" 2)].

(** The tree of [-a * b] once more, with other tokens. *)
Definition minus_a_times_b_retokened : Expression :=
  InfixExpression (tok token.ILLEGAL "?")
    (PrefixExpression (tok token.EOF "") "-"
       (EIdentifier {| IdentToken := tok token.IDENT "a";
                       IdentValue := "a" |}))
    "*"
    (EIdentifier {| IdentToken := tok token.ILLEGAL ""; IdentValue := "b" |}).

End ast_examples.

Module object_examples.
Import object.

(** The hash of [{1: 2, 3: 4}] and the hash of [{"one": [1, true]}]. *)
Definition two_pairs : Object :=
  Hash [(Integer_HashKey 1, MkHashPair (Integer 1) (Integer 2));
        (Integer_HashKey 3, MkHashPair (Integer 3) (Integer 4))].

Definition one_pair : Object :=
  Hash [(String_HashKey "one",
         MkHashPair (String_ "one") (Array [Integer 1; Boolean true]))].

(** Two orders in which [range] may visit a map: the order of the entries
    as they are given, and the reverse order. *)
Definition in_order (l : list string) : list string := l.
Definition in_reverse (l : list string) : list string := rev l.

End object_examples.

Module env_examples.
Import object props.

(** A global environment binding [x] and [y], and an environment enclosed
    in it that binds [x] again. *)
Definition setup : list Op :=
  [OpNewEnvironment;
   OpNewEnclosedEnvironment (Some 0);
   OpSet 0 "x" (Some (Integer 1));
   OpSet 0 "y" (Some (Integer 10));
   OpSet 1 "x" (Some (Integer 2))].

Definition heap : Heap := runs [] setup.

End env_examples.

Module repl_examples.
Import object.

(** A parser that has a diagnostic for the line [let] and none for any
    other line, and an evaluator that binds [x] and returns 5. *)
Definition ParseProgram (line : string) : ast.Program * list string :=
  if String.eqb line "let" then
    ({| ast.Statements := [] |},
     ["expected next token to be IDENT, got EOF instead"])
  else
    ({| ast.Statements :=
          [ast.ExpressionStatement (ast_examples.tok token.INT "5")
             (Some (ast_examples.int "5" 5))] |}, []).

Definition Eval (program : ast.Program) (env : addr) (h : Heap)
  : option Object * Heap :=
  (Some (Integer 5), fst (Set_ h env "x" (Some (Integer 5)))).

Definition Eval_nothing (program : ast.Program) (env : addr) (h : Heap)
  : option Object * Heap :=
  (None, h).

End repl_examples.

(** ** Facts about the library functions *)

Import golib.

Lemma append_cons (x : ascii) (a b : string) :
  String x a +:+ b = String x (a +:+ b).
Proof. reflexivity. Qed.

Lemma append_nil_l (a : string) : "" +:+ a = a.
Proof. reflexivity. Qed.

Lemma append_assoc (a b c : string) : (a +:+ b) +:+ c = a +:+ (b +:+ c).
Proof.
  induction a as [|x a IH]; [reflexivity |].
  now rewrite !append_cons, IH.
Qed.

Lemma append_nil_r (a : string) : a +:+ "" = a.
Proof.
  induction a as [|x a IH]; [reflexivity |].
  now rewrite append_cons, IH.
Qed.

Lemma Join_fold (sep : string) (rest : list string) (b : Buffer) :
  fold_left (fun b s => WriteString (WriteString b sep) s) rest b
  = b +:+ fold_right (fun s acc => sep +:+ s +:+ acc) "" rest.
Proof.
  revert b. induction rest as [|s rest IH]; intros b; simpl.
  - now rewrite append_nil_r.
  - rewrite IH. unfold WriteString. now rewrite !append_assoc.
Qed.

(** The loop of [strings.Join] computes the texts separated by [sep]. *)
Lemma Join_concat (elems : list string) (sep : string) :
  Join elems sep = String.concat sep elems.
Proof.
  destruct elems as [|e rest]; [reflexivity |].
  destruct rest as [|e' rest]; [reflexivity |].
  unfold Join. rewrite Join_fold. unfold WriteString, NewBuffer.
  rewrite append_nil_l. 
  change (String.concat sep (e :: e' :: rest)) with (e +:+ sep +:+ String.concat sep (e' :: rest)).
  f_equal.
  generalize e'. clear e e'.
  induction rest as [|e'' rest IH]; intros e'.
  - simpl. now rewrite append_nil_r.
  - change (String.concat sep (e' :: e'' :: rest)) with (e' +:+ sep +:+ String.concat sep (e'' :: rest)).
    rewrite <- IH. reflexivity.
Qed.

(** The texts written one after the other make the concatenation. *)
Lemma WriteString_fold (l : list string) (b : Buffer) :
  fold_left WriteString l b = b +:+ String.concat "" l.
Proof.
  revert b. induction l as [|s l IH]; intros b; simpl.
  - now rewrite append_nil_r.
  - rewrite IH. unfold WriteString. rewrite append_assoc. f_equal.
    destruct l as [|s' l]; simpl; [now rewrite append_nil_r | reflexivity].
Qed.

(** What [Sprintf_d] prints denotes the number in decimal. *)
Lemma decimal_value_Sprintf_d (v : Z) :
  props.decimal_value (Sprintf_d v) = Some v.
Proof.
  unfold props.decimal_value, Sprintf_d.
  rewrite NilZero.isi.
  - simpl. f_equal. apply DecimalZ.of_to.
  - destruct v; simpl; try discriminate.
    intros [= E]. now apply DecimalPos.Unsigned.to_uint_nonnil in E.
  - destruct v; simpl; try discriminate.
    intros [= E]. now apply DecimalPos.Unsigned.to_uint_nonnil in E.
Qed.

Lemma uint64_range (v : Z) : (0 <= uint64 v < 2 ^ 64)%Z.
Proof. unfold uint64. apply Z.mod_pos_bound. reflexivity. Qed.

Lemma uint64_land (v : Z) : uint64 v = Z.land v (Z.ones 64).
Proof. unfold uint64. now rewrite Z.land_ones. Qed.

Lemma uint64_int64 (v : Z) :
  int64_range v -> uint64 v = (if (v <? 0)%Z then v + 2 ^ 64 else v)%Z.
Proof.
  unfold int64_range, uint64. intros H.
  destruct (Z.ltb_spec v 0).
  - symmetry. apply Z.mod_unique with (q := (-1)%Z); lia.
  - apply Z.mod_small. lia.
Qed.

Lemma fnv64a_write_range (s : string) (h : Z) :
  (0 <= h < 2 ^ 64)%Z -> (0 <= fnv64a_write h s < 2 ^ 64)%Z.
Proof.
  revert h. induction s as [|c s IH]; intros h Hh; simpl; [exact Hh |].
  apply IH. unfold fnv64a_step. apply Z.mod_pos_bound. reflexivity.
Qed.

Lemma fnv64a_write_fold (s : string) (h : Z) :
  fnv64a_write h s = fold_left fnv64a_step (list_ascii_of_string s) h.
Proof.
  revert h. induction s as [|c s IH]; intros h; simpl; [reflexivity | apply IH].
Qed.

(** Published values of the 64-bit FNV-1a hash. *)
Example fnv64a_empty : fnv64a "" = 0xcbf29ce484222325%Z.
Proof. reflexivity. Qed.

Example fnv64a_a : fnv64a "a" = 0xaf63dc4c8601ec8c%Z.
Proof. vm_compute. reflexivity. Qed.

Example fnv64a_foobar : fnv64a "foobar" = 0x85944171f73967e8%Z.
Proof. vm_compute. reflexivity. Qed.

(** ** Hash keys *)

Import object props.

Example HashKey_minus_one :
  Integer_HashKey (-1)
  = {| HashKey_Type := "INTEGER"; HashKey_Value := 0xffffffffffffffff |}.
Proof. reflexivity. Qed.

Example HashKey_not_hashable : HashKey_of (Array []) = None.
Proof. reflexivity. Qed.

(** C1. The hash key of a Boolean is (BOOLEAN, 1) for true and (BOOLEAN, 0)
    for false; the hash key of an Integer is (INTEGER, the low 64 bits of
    the two's complement of its value), which for a value of the int64 range
    is the value itself when it is not negative and the value plus 2^64 when
    it is; the hash key of a String is (STRING, the 64-bit FNV-1a hash of
    its bytes: from the offset basis, each byte is xored in and the hash
    multiplied by the prime modulo 2^64). Two objects of the same type with
    the same underlying value have the same hash key. *)
Theorem HashKey_derivation (b : bool) (v : Z) (s : string) (o1 o2 : Object) :
  HashKey_of (Boolean b)
  = Some {| HashKey_Type := "BOOLEAN";
            HashKey_Value := if b then 1%Z else 0%Z |}
  /\ HashKey_of (Integer v)
     = Some {| HashKey_Type := "INTEGER";
               HashKey_Value := Z.land v (Z.ones 64) |}
  /\ (int64_range v ->
      HashKey_Value (Integer_HashKey v)
      = (if (v <? 0)%Z then v + 2 ^ 64 else v)%Z)
  /\ HashKey_of (String_ s)
     = Some {| HashKey_Type := "STRING";
               HashKey_Value :=
                 fold_left
                   (fun h c =>
                      (Z.lxor h (Z.of_N (N_of_ascii c)) * 1099511628211)
                        mod 2 ^ 64)%Z
                   (list_ascii_of_string s) 14695981039346656037%Z |}
  /\ (Type_ o1 = Type_ o2 -> payload o1 = payload o2 ->
      HashKey_of o1 = HashKey_of o2).
Proof.
  repeat split.
  - simpl. unfold Integer_HashKey. now rewrite uint64_land.
  - intros Hv. simpl. now apply uint64_int64.
  - simpl. unfold String_HashKey, fnv64a. now rewrite fnv64a_write_fold.
  - intros _ Hp.
    destruct o1, o2; simpl in Hp; try discriminate; try reflexivity;
      now inversion Hp.
Qed.

Lemma HashKey_derivation_witness :
  HashKey_Value (Integer_HashKey (-1)) = 18446744073709551615%Z
  /\ HashKey_of (String_ "one") = HashKey_of (String_ "one").
Proof.
  destruct (HashKey_derivation true (-1) "one" (String_ "one") (String_ "one"))
    as (_ & _ & Hint & _ & Heq).
  split.
  - apply Hint. unfold int64_range. split; [discriminate | reflexivity].
  - apply Heq; reflexivity.
Defined.

(** C9. The hash keys of two hashable objects of different types differ,
    because a hash key carries the type of its object. *)
Theorem HashKey_types_differ (o1 o2 : Object) (k1 k2 : HashKey) :
  HashKey_of o1 = Some k1 -> HashKey_of o2 = Some k2 ->
  Type_ o1 <> Type_ o2 ->
  HashKey_Type k1 = Type_ o1 /\ HashKey_Type k2 = Type_ o2 /\ k1 <> k2.
Proof.
  intros H1 H2 Hty.
  assert (E1 : HashKey_Type k1 = Type_ o1).
  { destruct o1; simpl in H1; try discriminate; now inversion H1. }
  assert (E2 : HashKey_Type k2 = Type_ o2).
  { destruct o2; simpl in H2; try discriminate; now inversion H2. }
  repeat split; trivial.
  intros ->. apply Hty. now rewrite <- E1, <- E2.
Qed.

(** The Integer 1 and the Boolean true: equal 64-bit values, different
    keys. *)
Lemma HashKey_types_differ_witness :
  HashKey_Value (Integer_HashKey 1) = HashKey_Value (Boolean_HashKey true)
  /\ Integer_HashKey 1 <> Boolean_HashKey true.
Proof.
  split; [reflexivity |].
  apply (HashKey_types_differ (Integer 1) (Boolean true)
           (Integer_HashKey 1) (Boolean_HashKey true));
    [reflexivity | reflexivity | discriminate].
Defined.

(** ** Textual forms of objects *)

Section InspectForms.

Variable range : list string -> list string.

Lemma Inspect_Array (els : list Object) :
  Inspect range (Array els)
  = "[" +:+ String.concat ", " (map (Inspect range) els) +:+ "]".
Proof.
  simpl. unfold BufferString, WriteString, NewBuffer.
  now rewrite Join_concat, append_nil_l, !append_assoc.
Qed.

Lemma Inspect_Function (params : list ast.Identifier)
      (body : ast.BlockStatement) (env : option addr) :
  Inspect range (Function params body env)
  = "fn" +:+ "(" +:+ String.concat ", " (map ast.IdentValue params)
    +:+ ")" +:+ " " +:+ "{" +:+ repl.newline
    +:+ ast.BlockStatement_String range body +:+ repl.newline +:+ "}".
Proof.
  simpl. unfold BufferString, WriteString, NewBuffer.
  rewrite Join_concat, append_nil_l, !append_assoc. reflexivity.
Qed.

End InspectForms.

Example Inspect_nested_array :
  Inspect (fun l => l)
    (Array [Integer 1; Array [String_ "two"; Boolean false]; Null;
            Error "boom"; Integer (-3)])
  = "[1, [two, false], null, ERROR: boom, -3]".
Proof. reflexivity. Qed.

(** C5. The textual form of an Integer is its value in decimal (the text
    denotes the value as a decimal number); of a Boolean,
    "true" or "false"; of Null, "null"; of a String, its text as it is; of
    an Array, "[", the textual forms of the elements separated by ", ", and
    "]"; of an Error, "ERROR: " and the message. *)
Theorem Inspect_canonical (range : list string -> list string)
        (v : Z) (s m : string) (els : list Object) :
  Inspect range (Integer v) = Sprintf_d v
  /\ decimal_value (Inspect range (Integer v)) = Some v
  /\ Inspect range (Boolean true) = "true"
  /\ Inspect range (Boolean false) = "false"
  /\ Inspect range Null = "null"
  /\ Inspect range (String_ s) = s
  /\ Inspect range (Array els)
     = "[" +:+ String.concat ", " (map (Inspect range) els) +:+ "]"
  /\ Inspect range (Error m) = "ERROR: " +:+ m.
Proof.
  split; [reflexivity |].
  split; [apply decimal_value_Sprintf_d |].
  do 4 (split; [reflexivity |]).
  split; [apply Inspect_Array | reflexivity].
Qed.

(** C7, as the code has it. The textual form of a Function is "fn", an open
    parenthesis, the names of the parameters separated by ", ", a close
    parenthesis, a space, an open brace, a newline, the text of the body, a
    newline and a close brace. *)
Theorem Function_Inspect_form (range : list string -> list string)
        (params : list ast.Identifier) (body : ast.BlockStatement)
        (env : option addr) :
  Inspect range (Function params body env)
  = "fn" +:+ "(" +:+ String.concat ", " (map ast.IdentValue params)
    +:+ ")" +:+ " " +:+ "{" +:+ repl.newline
    +:+ ast.BlockStatement_String range body +:+ repl.newline +:+ "}".
Proof. apply Inspect_Function. Qed.

(** C7, as the claim has it: no newline after the open brace or before the
    close brace. The function of no parameter and empty body shows that
    this is not what [Inspect] returns. *)
Lemma Function_Inspect_without_newlines_fails :
  ~ (forall (range : list string -> list string)
            (params : list ast.Identifier) (body : ast.BlockStatement)
            (env : option addr),
        Inspect range (Function params body env)
        = "fn" +:+ "(" +:+ String.concat ", " (map ast.IdentValue params)
          +:+ ")" +:+ " " +:+ "{"
          +:+ ast.BlockStatement_String range body +:+ "}").
Proof.
  intros H.
  specialize (H (fun l => l) []
                (ast.Block {| token.Type_ := token.LBRACE;
                              token.Literal := "{" |} [])
                None).
  vm_compute in H. discriminate H.
Qed.

Example Function_Inspect_identity :
  Inspect (fun l => l)
    (Function [ {| ast.IdentToken := {| token.Type_ := token.IDENT;
                                        token.Literal := "x" |};
                   ast.IdentValue := "x" |} ]
       (ast.Block {| token.Type_ := token.LBRACE; token.Literal := "{" |}
          [ast.ExpressionStatement
             {| token.Type_ := token.IDENT; token.Literal := "x" |}
             (Some (ast.EIdentifier
                      {| ast.IdentToken := {| token.Type_ := token.IDENT;
                                              token.Literal := "x" |};
                         ast.IdentValue := "x" |}))])
       None)
  = "fn(x) {" +:+ repl.newline +:+ "x" +:+ repl.newline +:+ "}".
Proof. reflexivity. Qed.

(** C10. The textual form of a ReturnValue is the textual form of the
    object it wraps; a line whose evaluation gives a ReturnValue is printed
    by the REPL as the same line giving the wrapped object. *)
Theorem ReturnValue_Inspect (range : list string -> list string)
        (v : Object)
        (ParseProgram : string -> ast.Program * list string)
        (Eval1 Eval2 : ast.Program -> addr -> Heap -> option Object * Heap)
        (line : string) (program : ast.Program) (env : addr) (h h' : Heap)
        (out : Buffer) :
  Inspect range (ReturnValue v) = Inspect range v
  /\ (ParseProgram line = (program, []) ->
      Eval1 program env h = (Some (ReturnValue v), h') ->
      Eval2 program env h = (Some v, h') ->
      repl.loop range ParseProgram Eval1 [line] env h out
      = repl.loop range ParseProgram Eval2 [line] env h out).
Proof.
  split; [reflexivity |].
  intros Hp H1 H2. simpl. now rewrite Hp, H1, H2.
Qed.

Lemma ReturnValue_Inspect_witness :
  repl.loop (fun l => l) (fun _ => ({| ast.Statements := [] |}, []))
            (fun _ _ h => (Some (ReturnValue (Integer 5)), h))
            ["return 5;"] 0 [] ""
  = repl.loop (fun l => l) (fun _ => ({| ast.Statements := [] |}, []))
              (fun _ _ h => (Some (Integer 5), h))
              ["return 5;"] 0 [] "".
Proof.
  apply (proj2 (ReturnValue_Inspect (fun l => l) (Integer 5)
                  (fun _ => ({| ast.Statements := [] |}, []))
                  (fun _ _ h => (Some (ReturnValue (Integer 5)), h))
                  (fun _ _ h => (Some (Integer 5), h))
                  "return 5;" {| ast.Statements := [] |} 0 [] [] ""));
    reflexivity.
Defined.

(** ** Textual forms of AST nodes *)

Example String_minus_a_times_b :
  ast.Expression_String (fun l => l) ast_examples.minus_a_times_b
  = "((-a) * b)".
Proof. reflexivity. Qed.

Example String_long_sum :
  ast.Expression_String (fun l => l) ast_examples.long_sum
  = "(((a + (b * c)) + (d / e)) - f)".
Proof. reflexivity. Qed.

Example String_index_product :
  ast.Expression_String (fun l => l) ast_examples.index_product
  = "((a * ([1, 2, 3, 4][(b * c)])) * d)".
Proof. reflexivity. Qed.

Example String_let_x :
  ast.Statement_String (fun l => l) ast_examples.let_x = "let x = 5;".
Proof. reflexivity. Qed.

Example String_if_else :
  ast.Expression_String (fun l => l) ast_examples.if_else = "ifx yelsez"
  /\ ast.Expression_String (fun l => l) ast_examples.if_only = "ifx yelsez".
Proof. split; reflexivity. Qed.

Section StringForms.

Variable range : list string -> list string.

Lemma String_Infix (t : token.Token) (l r : ast.Expression) (op : string) :
  ast.Expression_String range (ast.InfixExpression t l op r)
  = "(" +:+ ast.Expression_String range l +:+ " " +:+ op +:+ " "
    +:+ ast.Expression_String range r +:+ ")".
Proof.
  simpl. unfold BufferString, WriteString, NewBuffer.
  now rewrite append_nil_l, !append_assoc.
Qed.

Lemma String_Prefix (t : token.Token) (r : ast.Expression) (op : string) :
  ast.Expression_String range (ast.PrefixExpression t op r)
  = "(" +:+ op +:+ ast.Expression_String range r +:+ ")".
Proof.
  simpl. unfold BufferString, WriteString, NewBuffer.
  now rewrite append_nil_l, !append_assoc.
Qed.

Lemma String_Index (t : token.Token) (l i : ast.Expression) :
  ast.Expression_String range (ast.IndexExpression t l i)
  = "(" +:+ ast.Expression_String range l +:+ "["
    +:+ ast.Expression_String range i +:+ "]" +:+ ")".
Proof.
  simpl. unfold BufferString, WriteString, NewBuffer.
  now rewrite append_nil_l, !append_assoc.
Qed.

Lemma String_Block (t : token.Token) (stmts : list ast.Statement) :
  ast.BlockStatement_String range (ast.Block t stmts)
  = String.concat "" (map (ast.Statement_String range) stmts).
Proof. simpl. now rewrite WriteString_fold, append_nil_l. Qed.

End StringForms.

(** ** Environments *)

Lemma Get_fuel_S (fuel : nat) (h : Heap) (e : addr) (name : string) :
  Get_fuel (S fuel) h e name
  = env ← h !! e;
    match store env !! name with
    | Some obj => Some (obj, true)
    | None =>
        match outer env with
        | Some o => Get_fuel fuel h o name
        | None => Some (None, false)
        end
    end.
Proof.
  simpl. destruct (h !! e) as [env|]; simpl; [| reflexivity].
  destruct (store env !! name) as [obj|]; simpl; [reflexivity |].
  destruct (outer env) as [o|]; simpl; reflexivity.
Qed.

Lemma Chain_functional (h : Heap) (e : addr)
      (c c' : list (gmap string ObjectRef)) :
  Chain h e c -> Chain h e c' -> c = c'.
Proof.
  intros Hc. revert c'.
  induction Hc as [e env He Ho | e env o c He Ho Hc IH]; intros c' Hc';
    inversion Hc' as [e' env' He' Ho' | e' env' o' c'' He' Ho' Hc'']; subst;
    rewrite He in He'; inversion He'; subst; try congruence.
  rewrite Ho in Ho'. inversion Ho'; subst. f_equal. now apply IH.
Qed.

Lemma Chain_length (h : Heap) (e : addr) (c : list (gmap string ObjectRef)) :
  heap_wf h -> Chain h e c -> length c <= S e.
Proof.
  intros Hwf Hc.
  induction Hc as [e env He Ho | e env o c He Ho Hc IH]; simpl; [lia |].
  specialize (Hwf e env o He Ho). lia.
Qed.

Lemma Chain_exists (h : Heap) (e : addr) :
  heap_wf h -> e < length h -> exists c, Chain h e c.
Proof.
  intros Hwf. induction (lt_wf e) as [e _ IH]. intros He.
  destruct (lookup_lt_is_Some_2 h e He) as [env Henv].
  destruct (outer env) as [o|] eqn:Ho.
  - pose proof (Hwf e env o Henv Ho) as Hlt.
    destruct (IH o Hlt) as [c Hc]; [lia |].
    exists (store env :: c). now apply Chain_enclosed with o.
  - exists [store env]. now apply Chain_outermost.
Qed.

(** With a call for each environment of the chain, [Get] returns the
    innermost binding. *)
Lemma Get_fuel_Chain (h : Heap) (e : addr) (name : string)
      (c : list (gmap string ObjectRef)) :
  Chain h e c ->
  forall fuel, length c <= fuel ->
    Get_fuel fuel h e name = Some (Get_result (innermost_binding c name)).
Proof.
  induction 1 as [e env He Ho | e env o c He Ho Hc IH]; intros fuel Hf.
  - destruct fuel as [|fuel]; [simpl in Hf; lia |].
    rewrite Get_fuel_S, He. simpl. rewrite Ho.
    now destruct (store env !! name).
  - destruct fuel as [|fuel]; [simpl in Hf; lia |].
    rewrite Get_fuel_S, He. simpl. rewrite Ho.
    destruct (store env !! name); [reflexivity |].
    apply IH. simpl in Hf. lia.
Qed.

Lemma Get_Chain (h : Heap) (e : addr) (name : string)
      (c : list (gmap string ObjectRef)) :
  heap_wf h -> Chain h e c ->
  Get h e name = Some (Get_result (innermost_binding c name)).
Proof.
  intros Hwf Hc. apply Get_fuel_Chain; [exact Hc |].
  now apply Chain_length with h.
Qed.

Lemma innermost_binding_Some (c : list (gmap string ObjectRef))
      (name : string) (v : ObjectRef) :
  innermost_binding c name = Some v <->
  exists k st, c !! k = Some st /\ st !! name = Some v
               /\ forall j st', j < k -> c !! j = Some st' ->
                                st' !! name = None.
Proof.
  induction c as [|st c IH]; simpl.
  - split; [discriminate |]. intros (k & st & Hk & _). now destruct k.
  - destruct (st !! name) as [w|] eqn:Hst.
    + split.
      * intros [= ->]. exists 0, st. repeat split; trivial. intros; lia.
      * intros (k & st' & Hk & Hv & Hmin). destruct k as [|k].
        -- simpl in Hk. inversion Hk; subst. congruence.
        -- specialize (Hmin 0 st (Nat.lt_0_succ k) eq_refl). congruence.
    + rewrite IH. split.
      * intros (k & st' & Hk & Hv & Hmin). exists (S k), st'.
        repeat split; trivial. intros [|j] st'' Hj Hl; simpl in Hl.
        -- now inversion Hl; subst.
        -- apply (Hmin j); [lia | exact Hl].
      * intros (k & st' & Hk & Hv & Hmin). destruct k as [|k].
        -- simpl in Hk. inversion Hk; subst. congruence.
        -- exists k, st'. repeat split; trivial.
           intros j st'' Hj Hl. apply (Hmin (S j)); [lia | exact Hl].
Qed.

Lemma innermost_binding_None (c : list (gmap string ObjectRef))
      (name : string) :
  innermost_binding c name = None <->
  forall st, st ∈ c -> st !! name = None.
Proof.
  induction c as [|st c IH]; simpl.
  - split; [| reflexivity]. intros _ st Hst. inversion Hst.
  - destruct (st !! name) as [w|] eqn:Hst.
    + split; [discriminate |]. intros H.
      specialize (H st (list_elem_of_here st c)). congruence.
    + rewrite IH. split.
      * intros H st' Hin. inversion Hin; subst; auto.
      * intros H st' Hin. apply H. now apply list_elem_of_further.
Qed.

(** C2. [Get] returns on every environment of a heap built by the
    constructors. It returns [(obj, true)] exactly when [obj] is the binding
    of the name in the innermost environment of the scope chain whose store
    binds the name, and [(nil, false)] exactly when no environment of the
    chain binds it. *)
Theorem Get_searches_outward (h : Heap) (e : addr) (name : string) :
  heap_wf h -> e < length h ->
  exists c obj ok,
    Chain h e c
    /\ Get h e name = Some (obj, ok)
    /\ (ok = true <->
        exists k st, c !! k = Some st /\ st !! name = Some obj
                     /\ forall j st', j < k -> c !! j = Some st' ->
                                      st' !! name = None)
    /\ (ok = false <-> forall st, st ∈ c -> st !! name = None)
    /\ (ok = false -> obj = None).
Proof.
  intros Hwf He.
  destruct (Chain_exists h e Hwf He) as [c Hc].
  pose proof (Get_Chain h e name c Hwf Hc) as HG.
  destruct (innermost_binding c name) as [v|] eqn:Hb.
  - exists c, v, true. repeat split; trivial; try discriminate.
    + intros _. now apply innermost_binding_Some.
    + intros Hnone. apply innermost_binding_None in Hnone. congruence.
  - exists c, None, false. repeat split; trivial; try discriminate.
    + intros Hsome. apply innermost_binding_Some in Hsome. congruence.
    + intros _. now apply innermost_binding_None.
Qed.

Lemma heap_wf_nil : heap_wf [].
Proof. intros e env o He. now destruct e. Qed.

Lemma run_OpSet (h : Heap) (e : addr) (name : string) (val : ObjectRef) :
  run h (OpSet e name val)
  = alter (fun env => {| store := <[name := val]> (store env);
                         outer := outer env |}) e h.
Proof. reflexivity. Qed.

Lemma run_OpNewEnvironment (h : Heap) :
  run h OpNewEnvironment = (h ++ [{| store := ∅; outer := None |}])%list.
Proof. reflexivity. Qed.

Lemma run_OpNewEnclosedEnvironment (h : Heap) (o : option addr) :
  run h (OpNewEnclosedEnvironment o)
  = (h ++ [{| store := ∅; outer := o |}])%list.
Proof.
  unfold run, NewEnclosedEnvironment, NewEnvironment.
  cbv beta iota zeta delta [fst].
  rewrite alter_app_r_alt by lia. now rewrite Nat.sub_diag.
Qed.

Lemma lookup_snoc_Some (h : Heap) (x env : Environment) (e : addr) :
  (h ++ [x])%list !! e = Some env ->
  h !! e = Some env \/ (e = length h /\ env = x).
Proof.
  intros He. destruct (decide (e < length h)) as [Hlt|Hge].
  - left. now rewrite lookup_app_l in He.
  - right. rewrite lookup_app_r in He by lia.
    destruct (e - length h) as [|n] eqn:E; simpl in He.
    + inversion He; subst. split; [lia | reflexivity].
    + now destruct n.
Qed.

Lemma heap_wf_run (h : Heap) (op : Op) :
  heap_wf h -> op_ok h op -> heap_wf (run h op).
Proof.
  intros Hwf Hok e env o He Ho. destruct op as [a n | a n v | | o'].
  - eauto.
  - rewrite run_OpSet in He. destruct (decide (a = e)) as [->|Hne].
    + rewrite list_lookup_alter_eq in He.
      destruct (h !! e) as [env0|] eqn:Ha; simpl in He; [| discriminate].
      inversion He; subst; simpl in Ho. eauto.
    + rewrite list_lookup_alter_ne in He by exact Hne. eauto.
  - rewrite run_OpNewEnvironment in He.
    apply lookup_snoc_Some in He as [He | [-> ->]]; [eauto | discriminate].
  - rewrite run_OpNewEnclosedEnvironment in He.
    apply lookup_snoc_Some in He as [He | [-> ->]]; [eauto |].
    simpl in Ho. subst o'. exact Hok.
Qed.

(** The heaps that the operations build from the empty heap are
    well-formed. *)
Lemma heap_wf_runs (ops : list Op) (h : Heap) :
  heap_wf h -> ops_ok h ops -> heap_wf (runs h ops).
Proof.
  revert h. induction ops as [|op ops IH]; intros h Hwf Hok; simpl in *.
  - exact Hwf.
  - destruct Hok as [Hop Hops]. apply IH; [| exact Hops].
    now apply heap_wf_run.
Qed.

Lemma heap_wf_example : heap_wf env_examples.heap.
Proof.
  apply heap_wf_runs; [apply heap_wf_nil |].
  simpl. repeat split; lia.
Qed.

Lemma Get_searches_outward_witness :
  exists c obj ok,
    Chain env_examples.heap 1 c
    /\ Get env_examples.heap 1 "x" = Some (obj, ok)
    /\ (ok = true <->
        exists k st, c !! k = Some st /\ st !! "x" = Some obj
                     /\ forall j st', j < k -> c !! j = Some st' ->
                                      st' !! "x" = None)
    /\ (ok = false <-> forall st, st ∈ c -> st !! "x" = None)
    /\ (ok = false -> obj = None).
Proof.
  apply (Get_searches_outward env_examples.heap 1 "x").
  - apply heap_wf_runs; [apply heap_wf_nil |]. simpl. repeat split; lia.
  - vm_compute. lia.
Defined.

Example Get_shadowed :
  Get env_examples.heap 1 "x" = Some (Some (Integer 2), true)
  /\ Get env_examples.heap 1 "y" = Some (Some (Integer 10), true)
  /\ Get env_examples.heap 1 "z" = Some (None, false)
  /\ Get env_examples.heap 0 "x" = Some (Some (Integer 1), true).
Proof. repeat split; vm_compute; reflexivity. Qed.

Lemma Set_heap (h : Heap) (e : addr) (name : string) (val : ObjectRef) :
  fst (Set_ h e name val) = run h (OpSet e name val).
Proof. reflexivity. Qed.

Lemma Set_lookup (h : Heap) (e : addr) (env : Environment) (name : string)
      (val : ObjectRef) :
  h !! e = Some env ->
  fst (Set_ h e name val) !! e
  = Some {| store := <[name := val]> (store env); outer := outer env |}.
Proof.
  intros He. rewrite Set_heap, run_OpSet, list_lookup_alter_eq, He.
  reflexivity.
Qed.

Lemma Set_lookup_ne (h : Heap) (e a : addr) (name : string)
      (val : ObjectRef) :
  a <> e -> fst (Set_ h e name val) !! a = h !! a.
Proof.
  intros Hne. rewrite Set_heap, run_OpSet.
  apply list_lookup_alter_ne. congruence.
Qed.

Lemma Get_Set (h : Heap) (e : addr) (env : Environment) (name : string)
      (val : ObjectRef) :
  h !! e = Some env ->
  Get (fst (Set_ h e name val)) e name = Some (val, true).
Proof.
  intros He. unfold Get.
  rewrite Get_fuel_S, (Set_lookup h e env name val He). simpl.
  now rewrite lookup_insert_eq.
Qed.

(** [Set] on a name leaves the lookup of every other name as it was, from
    every environment. *)
Lemma Get_fuel_Set_ne (fuel : nat) (h : Heap) (e a : addr)
      (name n : string) (val : ObjectRef) :
  n <> name ->
  Get_fuel fuel (fst (Set_ h e name val)) a n = Get_fuel fuel h a n.
Proof.
  intros Hn. revert a. induction fuel as [|fuel IH]; intros a; [reflexivity |].
  rewrite !Get_fuel_S.
  destruct (decide (a = e)) as [->|Hne].
  - destruct (h !! e) as [env|] eqn:He.
    + rewrite (Set_lookup h e env name val He). simpl.
      rewrite lookup_insert_ne by congruence.
      destruct (store env !! n); [reflexivity |].
      destruct (outer env); [apply IH | reflexivity].
    + rewrite Set_heap, run_OpSet, list_lookup_alter_eq, He. reflexivity.
  - rewrite Set_lookup_ne by exact Hne.
    destruct (h !! a) as [env|]; simpl; [| reflexivity].
    destruct (store env !! n); [reflexivity |].
    destruct (outer env); [apply IH | reflexivity].
Qed.

Lemma Outer_lt (h : Heap) (e o : addr) :
  heap_wf h -> Outer h e o -> o < e.
Proof.
  intros Hwf. induction 1 as [e env o He Ho | e env o o' He Ho _ IH].
  - eauto.
  - specialize (Hwf e env o He Ho). lia.
Qed.

(** An operation keeps every binding; the value bound changes only by a
    [Set] of the same name on the same environment. *)
Lemma run_keeps_binding (h : Heap) (op : Op) (a : addr) (env : Environment)
      (n : string) (v : ObjectRef) :
  h !! a = Some env -> store env !! n = Some v ->
  exists env' v',
    run h op !! a = Some env' /\ store env' !! n = Some v'
    /\ (v' = v \/ op = OpSet a n v').
Proof.
  intros Ha Hn. destruct op as [e name | e name val | | o].
  - exists env, v. auto.
  - rewrite run_OpSet. destruct (decide (e = a)) as [->|Hne].
    + rewrite list_lookup_alter_eq, Ha. simpl.
      destruct (decide (name = n)) as [->|Hname].
      * eexists _, val. split; [reflexivity |]. simpl.
        rewrite lookup_insert_eq. auto.
      * eexists _, v. split; [reflexivity |]. simpl.
        rewrite lookup_insert_ne by exact Hname. auto.
    + rewrite list_lookup_alter_ne by exact Hne. exists env, v. auto.
  - rewrite run_OpNewEnvironment.
    rewrite lookup_app_l by (eapply lookup_lt_Some; eauto).
    exists env, v. auto.
  - rewrite run_OpNewEnclosedEnvironment.
    rewrite lookup_app_l by (eapply lookup_lt_Some; eauto).
    exists env, v. auto.
Qed.

Lemma runs_keeps_binding (ops : list Op) (h : Heap) (a : addr)
      (env : Environment) (n : string) (v : ObjectRef) :
  h !! a = Some env -> store env !! n = Some v ->
  exists env' v',
    runs h ops !! a = Some env' /\ store env' !! n = Some v'
    /\ (v' = v \/ OpSet a n v' ∈ ops).
Proof.
  revert h env v. induction ops as [|op ops IH]; intros h env v Ha Hn.
  - exists env, v. auto.
  - destruct (run_keeps_binding h op a env n v Ha Hn)
      as (env1 & v1 & Ha1 & Hn1 & Hv1).
    destruct (IH (run h op) env1 v1 Ha1 Hn1) as (env2 & v2 & Ha2 & Hn2 & Hv2).
    exists env2, v2. split; [exact Ha2 |]. split; [exact Hn2 |].
    destruct Hv2 as [-> | Hin].
    + destruct Hv1 as [-> | ->]; [now left | right; apply list_elem_of_here].
    + right. now apply list_elem_of_further.
Qed.

(** C3. [Set] returns the value and binds it in the current environment:
    [Get] of the name from that environment then yields the value. Every
    other name of the environment keeps its binding, and is looked up as
    before; every outer environment, and every other environment, is
    unchanged. Whatever [Get], [Set], [NewEnvironment] and
    [NewEnclosedEnvironment] operations follow one another, a name bound in
    the store of an environment stays bound there, to the same value unless
    one of the operations is a [Set] of that name on that environment. *)
Theorem Set_binds_current_scope
        (h : Heap) (e : addr) (env : Environment) (name : string)
        (val : ObjectRef)
        (h0 : Heap) (ops : list Op) (a : addr) (env0 : Environment)
        (n : string) (v : ObjectRef) :
  heap_wf h -> h !! e = Some env ->
  snd (Set_ h e name val) = val
  /\ Get (fst (Set_ h e name val)) e name = Some (val, true)
  /\ (exists env',
         fst (Set_ h e name val) !! e = Some env'
         /\ outer env' = outer env
         /\ forall n', n' <> name -> store env' !! n' = store env !! n')
  /\ (forall n', n' <> name ->
        Get (fst (Set_ h e name val)) e n' = Get h e n')
  /\ (forall o, Outer h e o -> fst (Set_ h e name val) !! o = h !! o)
  /\ (forall a', a' <> e -> fst (Set_ h e name val) !! a' = h !! a')
  /\ (h0 !! a = Some env0 -> store env0 !! n = Some v ->
      exists env1 v1,
        runs h0 ops !! a = Some env1 /\ store env1 !! n = Some v1
        /\ (v1 = v \/ OpSet a n v1 ∈ ops)).
Proof.
  intros Hwf He.
  split; [reflexivity |].
  split; [now apply Get_Set with env |].
  split.
  { eexists. split; [apply (Set_lookup h e env name val He) |].
    split; [reflexivity |].
    intros n' Hn'. simpl. now apply lookup_insert_ne. }
  split; [intros n' Hn'; now apply Get_fuel_Set_ne |].
  split.
  { intros o Ho. apply Set_lookup_ne.
    pose proof (Outer_lt h e o Hwf Ho). lia. }
  split; [intros a' Ha'; now apply Set_lookup_ne |].
  apply runs_keeps_binding.
Qed.

Lemma Set_binds_current_scope_witness :
  Get (fst (Set_ env_examples.heap 1 "x" (Some (Integer 3)))) 1 "x"
  = Some (Some (Integer 3), true)
  /\ (exists env1 v1,
         runs env_examples.heap
              [OpSet 0 "x" (Some (Integer 7));
               OpNewEnclosedEnvironment (Some 1);
               OpGet 2 "y"] !! 0 = Some env1
         /\ store env1 !! "y" = Some v1
         /\ (v1 = Some (Integer 10)
             \/ OpSet 0 "y" v1 ∈ [OpSet 0 "x" (Some (Integer 7));
                                  OpNewEnclosedEnvironment (Some 1);
                                  OpGet 2 "y"])).
Proof.
  destruct (Set_binds_current_scope
              env_examples.heap 1
              {| store := {[ "x" := Some (Integer 2) ]}; outer := Some 0 |}
              "x" (Some (Integer 3))
              env_examples.heap
              [OpSet 0 "x" (Some (Integer 7));
               OpNewEnclosedEnvironment (Some 1);
               OpGet 2 "y"]
              0
              {| store := <[ "y" := Some (Integer 10) ]>
                            {[ "x" := Some (Integer 1) ]};
                 outer := None |}
              "y" (Some (Integer 10)))
    as (_ & HGet & _ & _ & _ & _ & Hkeep).
  - apply heap_wf_runs; [apply heap_wf_nil |]. simpl. repeat split; lia.
  - vm_compute. reflexivity.
  - split; [exact HGet |]. apply Hkeep; vm_compute; reflexivity.
Defined.

(** ** The REPL *)

Lemma WriteString_fold_map {A : Type} (f : A -> string) (l : list A)
      (b : Buffer) :
  fold_left (fun out x => WriteString out (f x)) l b
  = fold_left WriteString (map f l) b.
Proof.
  revert b. induction l as [|x l IH]; intros b; simpl; [reflexivity |].
  apply IH.
Qed.

Lemma printParserErrors_text (out : Buffer) (errors : list string) :
  repl.printParserErrors out errors
  = out +:+ "Parser errors:" +:+ repl.newline
    +:+ String.concat ""
          (map (fun msg => repl.tab +:+ msg +:+ repl.newline) errors).
Proof.
  unfold repl.printParserErrors.
  rewrite (WriteString_fold_map
             (fun msg => repl.tab +:+ msg +:+ repl.newline)).
  rewrite WriteString_fold. unfold WriteString.
  now rewrite !append_assoc.
Qed.

Lemma length_eqb_0 {A : Type} (l : list A) :
  (length l =? 0)%nat = true <-> l = [].
Proof. destruct l; simpl; split; congruence. Qed.

Section Loop.

Variable range : list string -> list string.
Variable ParseProgram : string -> ast.Program * list string.
Variable Eval : ast.Program -> addr -> Heap -> option Object * Heap.

Lemma loop_nil (env : addr) (h : Heap) (out : Buffer) :
  repl.loop range ParseProgram Eval [] env h out = (h, out +:+ repl.PROMPT).
Proof. reflexivity. Qed.

Lemma loop_diagnostics (line : string) (rest : list string)
      (program : ast.Program) (errors : list string)
      (env : addr) (h : Heap) (out : Buffer) :
  ParseProgram line = (program, errors) -> errors <> [] ->
  repl.loop range ParseProgram Eval (line :: rest) env h out
  = repl.loop range ParseProgram Eval rest env h
      (repl.printParserErrors (out +:+ repl.PROMPT) errors).
Proof.
  intros Hp Herr. simpl. rewrite Hp.
  destruct (length errors =? 0)%nat eqn:E; [| reflexivity].
  apply length_eqb_0 in E. contradiction.
Qed.

Lemma loop_evaluated (line : string) (rest : list string)
      (program : ast.Program) (evaluated : option Object)
      (env : addr) (h h' : Heap) (out : Buffer) :
  ParseProgram line = (program, []) ->
  Eval program env h = (evaluated, h') ->
  repl.loop range ParseProgram Eval (line :: rest) env h out
  = repl.loop range ParseProgram Eval rest env h'
      (out +:+ repl.PROMPT
       +:+ match evaluated with
           | Some o => Inspect range o +:+ repl.newline
           | None => ""
           end).
Proof.
  intros Hp He. simpl. rewrite Hp. simpl. rewrite He.
  destruct evaluated as [o|]; unfold WriteString.
  - now rewrite !append_assoc.
  - now rewrite append_nil_r.
Qed.

End Loop.

(** C4. A line whose parse gives diagnostics: the REPL writes the prompt,
    the heading and each diagnostic on a line of its own after a tab, and
    goes on with the heap of environments as it was; what it does for the
    line is the same whatever the evaluator is. A line whose parse gives no
    diagnostic: the REPL evaluates the program in the persistent environment
    and writes the textual form of the result and a newline, or nothing when
    there is no result, and goes on with the heap that the evaluator
    left. *)
Theorem repl_line
        (range : list string -> list string)
        (ParseProgram : string -> ast.Program * list string)
        (Eval Eval' : ast.Program -> addr -> Heap -> option Object * Heap)
        (bad ok : string) (rest : list string)
        (program_bad program_ok : ast.Program) (errors : list string)
        (evaluated : option Object) (env : addr) (h h' : Heap)
        (out : Buffer) :
  ParseProgram bad = (program_bad, errors) -> errors <> [] ->
  ParseProgram ok = (program_ok, []) ->
  Eval program_ok env h = (evaluated, h') ->
  repl.loop range ParseProgram Eval (bad :: rest) env h out
  = repl.loop range ParseProgram Eval rest env h
      (out +:+ repl.PROMPT +:+ "Parser errors:" +:+ repl.newline
       +:+ String.concat ""
             (map (fun msg => repl.tab +:+ msg +:+ repl.newline) errors))
  /\ repl.loop range ParseProgram Eval [bad] env h out
     = repl.loop range ParseProgram Eval' [bad] env h out
  /\ fst (repl.loop range ParseProgram Eval [bad] env h out) = h
  /\ repl.loop range ParseProgram Eval (ok :: rest) env h out
     = repl.loop range ParseProgram Eval rest env h'
         (out +:+ repl.PROMPT
          +:+ match evaluated with
              | Some o => Inspect range o +:+ repl.newline
              | None => ""
              end).
Proof.
  intros Hbad Herr Hok Hev.
  split.
  { rewrite (loop_diagnostics range ParseProgram Eval bad rest program_bad
               errors env h out Hbad Herr).
    now rewrite printParserErrors_text, !append_assoc. }
  split.
  { now rewrite !(loop_diagnostics range ParseProgram _ bad [] program_bad
                    errors env h out Hbad Herr). }
  split.
  { now rewrite (loop_diagnostics range ParseProgram Eval bad [] program_bad
                   errors env h out Hbad Herr). }
  now apply loop_evaluated with program_ok.
Qed.

Lemma repl_line_witness :
  fst (repl.loop (fun l => l) repl_examples.ParseProgram repl_examples.Eval
         ["let"] 0 env_examples.heap "")
  = env_examples.heap
  /\ snd (repl.loop (fun l => l) repl_examples.ParseProgram
            repl_examples.Eval ["5"] 0 env_examples.heap "")
     = ">> 5" +:+ repl.newline +:+ ">> ".
Proof.
  destruct (repl_line (fun l => l) repl_examples.ParseProgram
              repl_examples.Eval repl_examples.Eval_nothing
              "let" "5" []
              {| ast.Statements := [] |}
              {| ast.Statements :=
                   [ast.ExpressionStatement (ast_examples.tok token.INT "5")
                      (Some (ast_examples.int "5" 5))] |}
              ["expected next token to be IDENT, got EOF instead"]
              (Some (Integer 5)) 0 env_examples.heap
              (fst (Set_ env_examples.heap 0 "x" (Some (Integer 5)))) "")
    as (_ & _ & Hheap & Hok);
    [reflexivity | discriminate | reflexivity | reflexivity |].
  split; [exact Hheap |]. rewrite Hok. reflexivity.
Defined.

Example repl_session :
  snd (repl.Start (fun l => l) repl_examples.ParseProgram repl_examples.Eval
         [] ["let"; "5"] "")
  = ">> Parser errors:" +:+ repl.newline
    +:+ repl.tab +:+ "expected next token to be IDENT, got EOF instead"
    +:+ repl.newline
    +:+ ">> 5" +:+ repl.newline +:+ ">> ".
Proof. reflexivity. Qed.

Example repl_nothing_printed :
  snd (repl.Start (fun l => l) repl_examples.ParseProgram
         repl_examples.Eval_nothing [] ["5"] "")
  = ">> >> ".
Proof. reflexivity. Qed.

(** ** Determinism of the textual forms *)

Lemma range_ok_short (range : list string -> list string) (l : list string) :
  range_ok range -> length l <= 1 -> range l = l.
Proof.
  intros Hr Hl. specialize (Hr l).
  destruct l as [|x [|y l]]; simpl in Hl; [| | lia].
  - now apply Permutation_nil.
  - now apply Permutation_length_1_inv.
Qed.

Lemma map_ext_Forall_bool {A B : Type} (f g : A -> B) (p : A -> bool)
      (l : list A) :
  Forall (fun x => p x = true -> f x = g x) l ->
  forallb p l = true -> map f l = map g l.
Proof.
  induction 1 as [|x l Hx _ IH]; simpl; [reflexivity |].
  intros [Hp Hl]%andb_prop. rewrite (Hx Hp), (IH Hl). reflexivity.
Qed.

Section Stable.

Variables range1 range2 : list string -> list string.
Hypothesis Hrange1 : range_ok range1.
Hypothesis Hrange2 : range_ok range2.

Lemma range_small (l1 l2 : list string) :
  l1 = l2 -> length l1 <= 1 -> range1 l1 = range2 l2.
Proof.
  intros <- Hl. now rewrite !range_ok_short.
Qed.

Lemma String_stable :
  (forall e, Expression_small_hashes e = true ->
             ast.Expression_String range1 e = ast.Expression_String range2 e)
  /\ (forall s, Statement_small_hashes s = true ->
                ast.Statement_String range1 s = ast.Statement_String range2 s)
  /\ (forall b, BlockStatement_small_hashes b = true ->
                ast.BlockStatement_String range1 b
                = ast.BlockStatement_String range2 b).
Proof.
  pose (P := fun e => Expression_small_hashes e = true ->
     ast.Expression_String range1 e = ast.Expression_String range2 e).
  pose (Q := fun s => Statement_small_hashes s = true ->
     ast.Statement_String range1 s = ast.Statement_String range2 s).
  pose (R := fun b => BlockStatement_small_hashes b = true ->
     ast.BlockStatement_String range1 b = ast.BlockStatement_String range2 b).
  apply (induction.Nodes_induction P Q R); subst P Q R; simpl;
    try reflexivity.
    - intros t op r IH H. now rewrite IH.
    - intros t l op r IHl IHr [Hl Hr]%andb_prop. now rewrite IHl, IHr.
    - intros t c b alt IHc IHb IHa [[Hc Hb]%andb_prop Ha]%andb_prop.
      rewrite IHc, IHb by assumption.
      destruct alt as [a|]; [| reflexivity]. simpl in IHa. now rewrite IHa.
    - intros t ps body IH H. now rewrite IH.
    - intros t f args IHf IHargs [Hf Hargs]%andb_prop.
      rewrite IHf by assumption.
      now rewrite (map_ext_Forall_bool _ _ _ _ IHargs Hargs).
    - intros t els IH H.
      now rewrite (map_ext_Forall_bool _ _ _ _ IH H).
    - intros t l i IHl IHi [Hl Hi]%andb_prop. now rewrite IHl, IHi.
    - intros t pairs IH [Hlen Hall]%andb_prop.
      apply Nat.leb_le in Hlen.
      rewrite (range_small
                 (map (fun kv => ast.Expression_String range1 (fst kv) +:+ ":"
                                 +:+ ast.Expression_String range1 (snd kv))
                      pairs)
                 (map (fun kv => ast.Expression_String range2 (fst kv) +:+ ":"
                                 +:+ ast.Expression_String range2 (snd kv))
                      pairs));
        [reflexivity | | now rewrite length_map].
      apply map_ext_Forall_bool with
        (p := fun kv => Expression_small_hashes (fst kv)
                        && Expression_small_hashes (snd kv));
        [| exact Hall].
      eapply Forall_impl; [exact IH |].
      intros [k v] [Hk Hv] [Hk' Hv']%andb_prop. simpl in *.
      now rewrite Hk, Hv.
    - intros t n [v|] IH H; simpl in *; [now rewrite IH | reflexivity].
    - intros t [v|] IH H; simpl in *; [now rewrite IH | reflexivity].
    - intros t [v|] IH H; simpl in *; [now apply IH | reflexivity].
    - intros b IH H. now apply IH.
    - intros t stmts IH H.
      now rewrite (map_ext_Forall_bool _ _ _ _ IH H).
Qed.

Lemma Inspect_stable (o : Object) :
  Object_small_hashes o = true -> Inspect range1 o = Inspect range2 o.
Proof.
  induction o as [v | b | | v IH | m | ps body env | s | f | els IH
                  | pairs IH] using induction.Object_induction;
    simpl; try reflexivity.
  - exact IH.
  - intros H. destruct String_stable as (_ & _ & HB). now rewrite (HB body H).
  - intros H. now rewrite (map_ext_Forall_bool _ _ _ _ IH H).
  - intros [Hlen Hall]%andb_prop. apply Nat.leb_le in Hlen.
    rewrite (range_small
               (map (fun kp => match snd kp with
                               | MkHashPair k v =>
                                   Inspect range1 k +:+ ": "
                                   +:+ Inspect range1 v
                               end) pairs)
               (map (fun kp => match snd kp with
                               | MkHashPair k v =>
                                   Inspect range2 k +:+ ": "
                                   +:+ Inspect range2 v
                               end) pairs));
      [reflexivity | | now rewrite length_map].
    apply map_ext_Forall_bool with
      (p := fun kp => match snd kp with
                      | MkHashPair k v =>
                          Object_small_hashes k && Object_small_hashes v
                      end);
      [| exact Hall].
    eapply Forall_impl; [exact IH |].
    intros [hk [k v]]. unfold induction.on_pair. simpl.
    intros [Hk Hv] [Hk' Hv']%andb_prop. now rewrite Hk, Hv.
Qed.

End Stable.

Lemma range_ok_in_order : range_ok object_examples.in_order.
Proof. intros l. reflexivity. Qed.

Lemma range_ok_in_reverse : range_ok object_examples.in_reverse.
Proof. intros l. symmetry. apply Permutation_rev. Qed.

Example Inspect_two_pairs :
  Inspect object_examples.in_order object_examples.two_pairs = "{1: 2, 3: 4}"
  /\ Inspect object_examples.in_reverse object_examples.two_pairs
     = "{3: 4, 1: 2}".
Proof. split; reflexivity. Qed.

Example String_two_pairs :
  ast.Expression_String object_examples.in_order ast_examples.two_pairs
  = "{one:1, two:2}"
  /\ ast.Expression_String object_examples.in_reverse ast_examples.two_pairs
     = "{two:2, one:1}".
Proof. split; reflexivity. Qed.

(** The pairs of a hash are listed in the order in which [range] visits
    them. *)
Lemma Inspect_Hash (range : list string -> list string)
      (pairs : list (HashKey * HashPair)) :
  range_ok range ->
  exists l,
    Permutation l
      (map (fun kp => match snd kp with
                      | MkHashPair k v =>
                          Inspect range k +:+ ": " +:+ Inspect range v
                      end) pairs)
    /\ Inspect range (Hash pairs) = "{" +:+ String.concat ", " l +:+ "}".
Proof.
  intros Hr. eexists. split; [apply Hr |].
  simpl. unfold BufferString, WriteString, NewBuffer.
  now rewrite Join_concat, append_nil_l, !append_assoc.
Qed.

(** C8, as the code has it. Whatever the orders in which [range] visits
    maps in two invocations, the two invocations of [Inspect] on an object,
    and of [String] on a node, return the same text when no hash and no hash
    literal in it has more than one pair. The text of a hash lists its
    pairs in the order in which [range] visits them. *)
Theorem textual_form_repeatable
        (range1 range2 : list string -> list string)
        (o : Object) (e : ast.Expression) (s : ast.Statement)
        (b : ast.BlockStatement) (p : ast.Program)
        (pairs : list (HashKey * HashPair)) :
  range_ok range1 -> range_ok range2 ->
  (Object_small_hashes o = true -> Inspect range1 o = Inspect range2 o)
  /\ (Expression_small_hashes e = true ->
      ast.Expression_String range1 e = ast.Expression_String range2 e)
  /\ (Statement_small_hashes s = true ->
      ast.Statement_String range1 s = ast.Statement_String range2 s)
  /\ (BlockStatement_small_hashes b = true ->
      ast.BlockStatement_String range1 b = ast.BlockStatement_String range2 b)
  /\ (Program_small_hashes p = true ->
      ast.Program_String range1 p = ast.Program_String range2 p)
  /\ (exists l,
         Permutation l
           (map (fun kp => match snd kp with
                           | MkHashPair k v =>
                               Inspect range1 k +:+ ": " +:+ Inspect range1 v
                           end) pairs)
         /\ Inspect range1 (Hash pairs)
            = "{" +:+ String.concat ", " l +:+ "}").
Proof.
  intros H1 H2.
  destruct (String_stable range1 range2 H1 H2) as (HE & HS & HB).
  split; [now apply Inspect_stable |].
  split; [apply HE |]. split; [apply HS |]. split; [apply HB |].
  split; [| now apply Inspect_Hash].
  intros Hp. unfold ast.Program_String. f_equal.
  apply map_ext_Forall_bool with (p := Statement_small_hashes);
    [| exact Hp].
  apply Forall_forall. intros x _. apply HS.
Qed.

Lemma textual_form_repeatable_witness :
  Inspect object_examples.in_order object_examples.one_pair
  = Inspect object_examples.in_reverse object_examples.one_pair
  /\ ast.Expression_String object_examples.in_order ast_examples.long_sum
     = ast.Expression_String object_examples.in_reverse ast_examples.long_sum.
Proof.
  destruct (textual_form_repeatable
              object_examples.in_order object_examples.in_reverse
              object_examples.one_pair ast_examples.long_sum
              ast_examples.let_x
              (ast.Block (ast_examples.tok token.LBRACE "{")
                         [ast_examples.let_x])
              {| ast.Statements := [ast_examples.let_x] |}
              [])
    as (HO & HE & _).
  - intros l. reflexivity.
  - intros l. symmetry. apply Permutation_rev.
  - split; [apply HO | apply HE]; reflexivity.
Defined.

(** C8, as the claim has it: the same text from any two invocations, on
    every object and every node. The hash of two pairs and the hash literal
    of two pairs have two texts, one for each order of the visit. *)
Lemma textual_form_not_repeatable :
  ~ (forall (range1 range2 : list string -> list string) (o : Object),
        range_ok range1 -> range_ok range2 ->
        Inspect range1 o = Inspect range2 o)
  /\ ~ (forall (range1 range2 : list string -> list string)
               (e : ast.Expression),
          range_ok range1 -> range_ok range2 ->
          ast.Expression_String range1 e = ast.Expression_String range2 e).
Proof.
  split; intros H.
  - specialize (H object_examples.in_order object_examples.in_reverse
                  object_examples.two_pairs
                  range_ok_in_order range_ok_in_reverse).
    vm_compute in H. discriminate H.
  - specialize (H object_examples.in_order object_examples.in_reverse
                  ast_examples.two_pairs
                  range_ok_in_order range_ok_in_reverse).
    vm_compute in H. discriminate H.
Qed.

(** ** Keywords *)

Lemma keywords_cases (s : string) :
  (s = "fn" \/ s = "let" \/ s = "true" \/ s = "false" \/ s = "if"
   \/ s = "else" \/ s = "return")
  \/ token.keywords !! s = None.
Proof.
  destruct (decide (s = "fn")); [tauto |].
  destruct (decide (s = "let")); [tauto |].
  destruct (decide (s = "true")); [tauto |].
  destruct (decide (s = "false")); [tauto |].
  destruct (decide (s = "if")); [tauto |].
  destruct (decide (s = "else")); [tauto |].
  destruct (decide (s = "return")); [tauto |].
  right. unfold token.keywords. simpl.
  rewrite !lookup_insert_ne by congruence. apply lookup_empty.
Qed.

(** X1. [LookupIdent] gives a keyword type exactly for the seven keyword
    spellings and IDENT for every other text; two texts with the same
    keyword type are the same text. *)
Theorem LookupIdent_keywords (ident ident' : string) :
  (token.LookupIdent ident <> token.IDENT <->
   ident ∈ ["fn"; "let"; "true"; "false"; "if"; "else"; "return"])
  /\ (token.LookupIdent ident
      ∈ [token.FUNCTION; token.LET; token.TRUE; token.FALSE; token.IF;
         token.ELSE; token.RETURN; token.IDENT])
  /\ (token.LookupIdent ident = token.LookupIdent ident' ->
      token.LookupIdent ident <> token.IDENT -> ident = ident').
Proof.
  split; [| split].
  - destruct (keywords_cases ident)
      as [[-> | [-> | [-> | [-> | [-> | [-> | ->]]]]]] | E].
    1-7: split; [intros _; set_solver | intros _; discriminate].
    unfold token.LookupIdent. rewrite E. split; [congruence |].
    intros Hin.
    repeat (apply elem_of_cons in Hin as [-> | Hin];
            [vm_compute in E; discriminate |]).
    now apply elem_of_nil in Hin.
  - destruct (keywords_cases ident)
      as [[-> | [-> | [-> | [-> | [-> | [-> | ->]]]]]] | E].
    1-7: vm_compute; set_solver.
    unfold token.LookupIdent. rewrite E. set_solver.
  - intros Heq Hne.
    destruct (keywords_cases ident)
      as [[-> | [-> | [-> | [-> | [-> | [-> | ->]]]]]] | E].
    8: { unfold token.LookupIdent in Hne. rewrite E in Hne. congruence. }
    all: destruct (keywords_cases ident')
      as [[-> | [-> | [-> | [-> | [-> | [-> | ->]]]]]] | E'];
      try reflexivity; try (vm_compute in Heq; discriminate Heq).
    all: unfold token.LookupIdent in Heq; rewrite E' in Heq;
      vm_compute in Heq; discriminate Heq.
Qed.

Lemma LookupIdent_keywords_witness : "let" = "let".
Proof.
  apply (proj2 (proj2 (LookupIdent_keywords "let" "let")));
    [reflexivity | discriminate].
Defined.

Example LookupIdent_case : token.LookupIdent "Let" = token.IDENT
                           /\ token.LookupIdent "fn" = token.FUNCTION
                           /\ token.LookupIdent "" = token.IDENT.
Proof. repeat split; vm_compute; reflexivity. Qed.

(** ** Type tags and hash keys *)

(** X2. The type tag determines the variant: two objects have the same type
    tag exactly when they are of the same variant. *)
Theorem Type_variant (o1 o2 : Object) :
  Type_ o1 = Type_ o2 <-> variant o1 = variant o2.
Proof.
  split; intros H; destruct o1, o2; simpl in *;
    solve [reflexivity | discriminate H].
Qed.

(** X3. The objects that have a hash key are the Integers, the Booleans and
    the Strings; the value of a hash key is a 64-bit unsigned number. *)
Theorem HashKey_of_hashable (o : Object) (k : HashKey) :
  (HashKey_of o = None <->
   Type_ o <> INTEGER_OBJ /\ Type_ o <> BOOLEAN_OBJ /\ Type_ o <> STRING_OBJ)
  /\ (HashKey_of o = Some k -> (0 <= HashKey_Value k < 2 ^ 64)%Z).
Proof.
  split.
  - destruct o; simpl; split; intros H;
      solve [discriminate H | reflexivity
             | repeat split; discriminate
             | destruct H as (H1 & H2 & H3); congruence].
  - destruct o; simpl; intros H; try discriminate H; inversion H; subst; simpl.
    + apply uint64_range.
    + destruct Value; lia.
    + apply fnv64a_write_range. unfold offset64. lia.
Qed.

Lemma HashKey_of_hashable_witness :
  (0 <= HashKey_Value (Integer_HashKey (-5)) < 2 ^ 64)%Z.
Proof.
  apply (proj2 (HashKey_of_hashable (Integer (-5)) (Integer_HashKey (-5)))).
  reflexivity.
Defined.

(** X4. Two Integers of the int64 range with the same hash key have the
    same value, and two Booleans with the same hash key are the same
    Boolean: among Integers and among Booleans, hash keys never collide. *)
Theorem HashKey_no_collision (v1 v2 : Z) (b1 b2 : bool) :
  int64_range v1 -> int64_range v2 ->
  (Integer_HashKey v1 = Integer_HashKey v2 -> v1 = v2)
  /\ (Boolean_HashKey b1 = Boolean_HashKey b2 -> b1 = b2).
Proof.
  intros H1 H2. split.
  - intros [= H]. rewrite (uint64_int64 v1 H1), (uint64_int64 v2 H2) in H.
    unfold int64_range in *.
    destruct (Z.ltb_spec v1 0), (Z.ltb_spec v2 0); lia.
  - intros [= H]. destruct b1, b2; congruence.
Qed.

Lemma HashKey_no_collision_witness : (-1)%Z = (-1)%Z /\ true = true.
Proof.
  destruct (HashKey_no_collision (-1) (-1) true true) as [Hi Hb].
  - unfold int64_range. split; [discriminate | reflexivity].
  - unfold int64_range. split; [discriminate | reflexivity].
  - split; [apply Hi | apply Hb]; reflexivity.
Defined.

(** Outside the int64 range the conversion wraps around. *)
Example HashKey_wraps :
  Integer_HashKey (2 ^ 64) = Integer_HashKey 0.
Proof. reflexivity. Qed.

(** X5. Two Integers with the same textual form have the same value, and
    so have two Booleans. *)
Theorem Inspect_distinguishes (range : list string -> list string)
        (v1 v2 : Z) (b1 b2 : bool) :
  (Inspect range (Integer v1) = Inspect range (Integer v2) -> v1 = v2)
  /\ (Inspect range (Boolean b1) = Inspect range (Boolean b2) -> b1 = b2).
Proof.
  split.
  - simpl. intros H.
    pose proof (decimal_value_Sprintf_d v1) as E1.
    pose proof (decimal_value_Sprintf_d v2) as E2.
    rewrite H in E1. congruence.
  - destruct b1, b2; simpl; intros H; solve [reflexivity | discriminate H].
Qed.

Lemma Inspect_distinguishes_witness : 42%Z = 42%Z /\ false = false.
Proof.
  destruct (Inspect_distinguishes (fun l => l) 42 42 false false) as [Hi Hb].
  split; [apply Hi | apply Hb]; reflexivity.
Defined.

(** ** Scopes *)

Lemma Get_fuel_enough (h : Heap) (e : addr) (name : string) (fuel : nat) :
  heap_wf h -> e < length h -> S e <= fuel ->
  Get_fuel fuel h e name = Get h e name.
Proof.
  intros Hwf He Hf.
  destruct (Chain_exists h e Hwf He) as [c Hc].
  pose proof (Chain_length h e c Hwf Hc) as Hl.
  rewrite (Get_Chain h e name c Hwf Hc).
  apply Get_fuel_Chain; [exact Hc | lia].
Qed.

(** Allocation leaves the lookups from the environments that there were. *)
Lemma Get_fuel_snoc (fuel : nat) (h : Heap) (x : Environment) (a : addr)
      (name : string) :
  heap_wf h -> a < length h ->
  Get_fuel fuel (h ++ [x])%list a name = Get_fuel fuel h a name.
Proof.
  intros Hwf. revert a. induction fuel as [|fuel IH]; intros a Ha;
    [reflexivity |].
  rewrite !Get_fuel_S, lookup_app_l by exact Ha.
  destruct (h !! a) as [env|] eqn:E; simpl; [| reflexivity].
  destruct (store env !! name); [reflexivity |].
  destruct (outer env) as [o|] eqn:Ho; [| reflexivity].
  apply IH. specialize (Hwf a env o E Ho). lia.
Qed.

Lemma NewEnclosedEnvironment_heap (h : Heap) (o : option addr) :
  NewEnclosedEnvironment h o
  = ((h ++ [{| store := ∅; outer := o |}])%list, length h).
Proof.
  pose proof (run_OpNewEnclosedEnvironment h o) as H.
  unfold run in H. unfold NewEnclosedEnvironment, NewEnvironment in *.
  cbv beta iota zeta delta [fst] in H. cbv beta iota zeta. now rewrite H.
Qed.

(** X6. [NewEnclosedEnvironment] on an allocated outer environment returns
    a new address; from the new environment every name is looked up as from
    the outer one; the environments that there were are unchanged and so
    are the lookups from them; and the heap stays well-formed. *)
Theorem NewEnclosedEnvironment_inherits (h : Heap) (o a : addr)
        (name : string) :
  heap_wf h -> o < length h -> a < length h ->
  snd (NewEnclosedEnvironment h (Some o)) = length h
  /\ h !! snd (NewEnclosedEnvironment h (Some o)) = None
  /\ heap_wf (fst (NewEnclosedEnvironment h (Some o)))
  /\ Get (fst (NewEnclosedEnvironment h (Some o)))
         (snd (NewEnclosedEnvironment h (Some o))) name
     = Get h o name
  /\ fst (NewEnclosedEnvironment h (Some o)) !! a = h !! a
  /\ Get (fst (NewEnclosedEnvironment h (Some o))) a name = Get h a name.
Proof.
  intros Hwf Ho Ha. rewrite NewEnclosedEnvironment_heap. simpl fst. simpl snd.
  split; [reflexivity |].
  split; [apply lookup_ge_None_2; lia |].
  split.
  { rewrite <- run_OpNewEnclosedEnvironment. now apply heap_wf_run. }
  split.
  { unfold Get at 1. rewrite Get_fuel_S.
    rewrite lookup_app_r, Nat.sub_diag by lia. simpl.
    rewrite lookup_empty, Get_fuel_snoc by assumption.
    apply Get_fuel_enough; [assumption | assumption | lia]. }
  split; [now apply lookup_app_l |].
  unfold Get. now apply Get_fuel_snoc.
Qed.

Lemma NewEnclosedEnvironment_inherits_witness :
  Get (fst (NewEnclosedEnvironment env_examples.heap (Some 1))) 2 "y"
  = Get env_examples.heap 1 "y".
Proof.
  destruct (NewEnclosedEnvironment_inherits env_examples.heap 1 0 "y")
    as (_ & _ & _ & H & _).
  - apply heap_wf_runs; [apply heap_wf_nil |]. simpl. repeat split; lia.
  - vm_compute. lia.
  - vm_compute. lia.
  - exact H.
Defined.

(** X7. A new environment without outer environment, from [NewEnvironment]
    or from [NewEnclosedEnvironment] on nil, binds no name: [Get] returns
    [(nil, false)] from it for every name. *)
Theorem NewEnvironment_empty (h : Heap) (name : string) :
  Get (fst (NewEnvironment h)) (snd (NewEnvironment h)) name
  = Some (None, false)
  /\ Get (fst (NewEnclosedEnvironment h None))
         (snd (NewEnclosedEnvironment h None)) name
     = Some (None, false).
Proof.
  rewrite NewEnclosedEnvironment_heap. unfold NewEnvironment. simpl fst.
  simpl snd. unfold Get. rewrite Get_fuel_S.
  rewrite lookup_app_r, Nat.sub_diag by lia. simpl.
  now rewrite lookup_empty.
Qed.

Lemma Get_fuel_Set_unreachable (fuel : nat) (h : Heap) (e : addr)
      (name n : string) (val : ObjectRef) (a : addr) :
  a <> e -> (forall y, Outer h a y -> y <> e) ->
  Get_fuel fuel (fst (Set_ h e name val)) a n = Get_fuel fuel h a n.
Proof.
  revert a. induction fuel as [|fuel IH]; intros a Ha Hout; [reflexivity |].
  rewrite !Get_fuel_S, Set_lookup_ne by exact Ha.
  destruct (h !! a) as [env|] eqn:E; simpl; [| reflexivity].
  destruct (store env !! n); [reflexivity |].
  destruct (outer env) as [o|] eqn:Ho; [| reflexivity].
  apply IH.
  - apply Hout. now apply Outer_direct with env.
  - intros y Hy. apply Hout. now apply Outer_further with env o.
Qed.

(** X8. [Set] on an environment changes the lookups only from that
    environment and from the environments enclosed in it: from any other
    environment, an outer environment or one beside it, every name is
    looked up as before. *)
Theorem Set_invisible_outside (h : Heap) (e a : addr) (name n : string)
        (val : ObjectRef) :
  (a <> e -> ~ Outer h a e ->
   Get (fst (Set_ h e name val)) a n = Get h a n)
  /\ (heap_wf h -> Outer h e a ->
      Get (fst (Set_ h e name val)) a n = Get h a n).
Proof.
  split.
  - intros Ha Hout. apply Get_fuel_Set_unreachable; [exact Ha |].
    intros y Hy ->. contradiction.
  - intros Hwf Hout. pose proof (Outer_lt h e a Hwf Hout) as Hlt.
    apply Get_fuel_Set_unreachable; [lia |].
    intros y Hy. pose proof (Outer_lt h a y Hwf Hy). lia.
Qed.

Lemma Set_invisible_outside_witness :
  Get (fst (Set_ env_examples.heap 1 "y" (Some (Integer 0)))) 0 "y"
  = Get env_examples.heap 0 "y"
  /\ Get (fst (Set_ env_examples.heap 1 "x" (Some (Integer 0)))) 0 "x"
     = Get env_examples.heap 0 "x".
Proof.
  split.
  - apply (proj2 (Set_invisible_outside env_examples.heap 1 0 "y" "y"
                    (Some (Integer 0)))).
    + apply heap_wf_runs; [apply heap_wf_nil |]. simpl. repeat split; lia.
    + apply Outer_direct
        with {| store := {[ "x" := Some (Integer 2) ]}; outer := Some 0 |};
        vm_compute; reflexivity.
  - apply (proj1 (Set_invisible_outside env_examples.heap 1 0 "x" "x"
                    (Some (Integer 0)))).
    + lia.
    + intros H. inversion H as [e env o He Ho | e env o o' He Ho _];
        vm_compute in He; inversion He; subst; discriminate Ho.
Defined.

Lemma Unbound_until_lt (h : Heap) (name : string) (o e : addr) :
  heap_wf h -> Unbound_until h name o e -> o < e.
Proof.
  intros Hwf. induction 1 as [e env He Hn Ho | e env x He Hn Ho _ IH].
  - eauto.
  - specialize (Hwf e env x He Ho). lia.
Qed.

Lemma Set_length (h : Heap) (e : addr) (name : string) (val : ObjectRef) :
  length (fst (Set_ h e name val)) = length h.
Proof. unfold Set_. simpl. apply length_alter. Qed.

(** X9. A binding made by [Set] in an outer environment is seen from the
    environments enclosed in it that do not bind the name themselves, nor
    have an environment that binds it in between. *)
Theorem Set_visible_inside (h : Heap) (o e : addr) (name : string)
        (val : ObjectRef) :
  heap_wf h -> Unbound_until h name o e ->
  Get (fst (Set_ h o name val)) e name = Some (val, true).
Proof.
  intros Hwf Hpath.
  assert (Hlen : o < length h).
  { pose proof (Unbound_until_lt h name o e Hwf Hpath) as Hlt.
    destruct Hpath as [e env He _ _ | e env x He _ _ _];
      apply lookup_lt_Some in He; lia. }
  assert (Hwf' : heap_wf (fst (Set_ h o name val))).
  { rewrite Set_heap. now apply heap_wf_run. }
  assert (Hlen' : forall a, a < length h ->
                       a < length (fst (Set_ h o name val))).
  { intros a Ha. now rewrite Set_length. }
  induction Hpath as [e env He Hn Ho | e env x He Hn Ho Hpath IH].
  - pose proof (Hwf e env o He Ho) as Hlt.
    destruct (lookup_lt_is_Some_2 h o Hlen) as [envo Heo].
    unfold Get. rewrite Get_fuel_S, Set_lookup_ne by lia.
    rewrite He. cbn [mbind option_bind]. rewrite Hn, Ho.
    rewrite (Get_fuel_enough _ o name e Hwf' (Hlen' o Hlen)) by lia.
    now apply Get_Set with envo.
  - pose proof (Hwf e env x He Ho) as Hlt.
    pose proof (Unbound_until_lt h name o x Hwf Hpath) as Hox.
    unfold Get. rewrite Get_fuel_S, Set_lookup_ne by lia.
    rewrite He. simpl. rewrite Hn, Ho.
    assert (Hx : x < length h) by (apply lookup_lt_Some in He; lia).
    change (alter _ o h) with (fst (Set_ h o name val)).
    rewrite (Get_fuel_enough _ x name e Hwf' (Hlen' x Hx)) by lia.
    exact IH.
Qed.

Lemma Set_visible_inside_witness :
  Get (fst (Set_ env_examples.heap 0 "z" (Some (Integer 7)))) 1 "z"
  = Some (Some (Integer 7), true).
Proof.
  apply (Set_visible_inside env_examples.heap 0 1 "z" (Some (Integer 7))).
  - apply heap_wf_runs; [apply heap_wf_nil |]. simpl. repeat split; lia.
  - apply Unbound_parent
      with {| store := {[ "x" := Some (Integer 2) ]}; outer := Some 0 |};
      vm_compute; reflexivity.
Defined.

(** The inner binding of a name hides a later [Set] of the name in the
    outer environment. *)
Example Set_shadowed :
  Get (fst (Set_ env_examples.heap 0 "x" (Some (Integer 7)))) 1 "x"
  = Some (Some (Integer 2), true).
Proof. vm_compute. reflexivity. Qed.

(** X10. A second [Set] of a name on an environment replaces the first:
    the heap is as after the second alone. Two [Set]s of different names on
    an environment, or on different environments, give the same heap in
    either order. *)
Theorem Set_overwrites_and_commutes (h : Heap) (e e' : addr)
        (name name' : string) (val val' : ObjectRef) :
  fst (Set_ (fst (Set_ h e name val)) e name val') = fst (Set_ h e name val')
  /\ (name <> name' \/ e <> e' ->
      fst (Set_ (fst (Set_ h e name val)) e' name' val')
      = fst (Set_ (fst (Set_ h e' name' val')) e name val)).
Proof.
  unfold Set_. simpl fst. split.
  - rewrite list_alter_alter_eq. apply list_alter_ext; [| reflexivity].
    intros env _. simpl. now rewrite insert_insert_eq.
  - intros [Hn | He].
    + destruct (decide (e = e')) as [<- | He].
      * rewrite !list_alter_alter_eq. apply list_alter_ext; [| reflexivity].
        intros env _. simpl. f_equal. apply insert_insert_ne. congruence.
      * apply list_alter_alter_ne. congruence.
    + apply list_alter_alter_ne. congruence.
Qed.

Lemma Set_overwrites_and_commutes_witness :
  fst (Set_ (fst (Set_ env_examples.heap 0 "x" (Some (Integer 1))))
            1 "y" None)
  = fst (Set_ (fst (Set_ env_examples.heap 1 "y" None))
              0 "x" (Some (Integer 1))).
Proof.
  apply (proj2 (Set_overwrites_and_commutes env_examples.heap 0 1 "x" "y"
                  (Some (Integer 1)) None)).
  left. discriminate.
Defined.

Lemma runs_length (ops : list Op) (h : Heap) :
  length h <= length (runs h ops).
Proof.
  revert h. induction ops as [|op ops IH]; intros h; simpl; [lia |].
  etransitivity; [| apply IH].
  destruct op as [a n | a n v | | o].
  - reflexivity.
  - rewrite run_OpSet, length_alter. lia.
  - rewrite run_OpNewEnvironment, length_app. simpl. lia.
  - rewrite run_OpNewEnclosedEnvironment, length_app. simpl. lia.
Qed.

(** X11. On every heap that the operations build from the empty heap, each
    operation naming only allocated environments, [Get] returns from every
    allocated environment, for every name: the outer links never form a
    cycle. *)
Theorem Get_returns (ops : list Op) (e : addr) (name : string) :
  ops_ok [] ops -> e < length (runs [] ops) ->
  exists obj ok, Get (runs [] ops) e name = Some (obj, ok).
Proof.
  intros Hok He.
  pose proof (heap_wf_runs ops [] heap_wf_nil Hok) as Hwf.
  destruct (Chain_exists (runs [] ops) e Hwf He) as [c Hc].
  rewrite (Get_Chain (runs [] ops) e name c Hwf Hc).
  destruct (Get_result (innermost_binding c name)) as [obj ok].
  now exists obj, ok.
Qed.

Lemma Get_returns_witness :
  exists obj ok, Get env_examples.heap 1 "nothing" = Some (obj, ok).
Proof.
  apply (Get_returns env_examples.setup 1 "nothing").
  - simpl. repeat split; lia.
  - vm_compute. lia.
Defined.

(** ** Sessions of the REPL *)

Section Sessions.

Variable range : list string -> list string.
Variable ParseProgram : string -> ast.Program * list string.
Variable Eval : ast.Program -> addr -> Heap -> option Object * Heap.

Lemma loop_cons (line : string) (rest : list string) (env : addr)
      (h : Heap) (out : Buffer) :
  repl.loop range ParseProgram Eval (line :: rest) env h out
  = repl.loop range ParseProgram Eval rest env
      (fst (turn range ParseProgram Eval line env h))
      (out +:+ repl.PROMPT
       +:+ snd (turn range ParseProgram Eval line env h)).
Proof.
  unfold turn.
  destruct (ParseProgram line) as [program errors] eqn:Hp.
  destruct errors as [|msg errors].
  - destruct (Eval program env h) as [evaluated h'] eqn:He.
    rewrite (loop_evaluated range ParseProgram Eval line rest program
               evaluated env h h' out Hp He).
    now destruct evaluated.
  - rewrite (loop_diagnostics range ParseProgram Eval line rest program
               (msg :: errors) env h out Hp) by discriminate.
    rewrite printParserErrors_text, !append_assoc. reflexivity.
Qed.

Lemma loop_appends (lines : list string) (env : addr) (h : Heap)
      (out : Buffer) :
  repl.loop range ParseProgram Eval lines env h out
  = (fst (repl.loop range ParseProgram Eval lines env h ""),
     out +:+ snd (repl.loop range ParseProgram Eval lines env h "")).
Proof.
  revert h out. induction lines as [|line lines IH]; intros h out.
  - reflexivity.
  - rewrite !loop_cons, append_nil_l.
    rewrite (IH _ (out +:+ _)), (IH _ (repl.PROMPT +:+ _)). simpl.
    now rewrite !append_assoc.
Qed.

Lemma loop_app (l1 l2 : list string) (env : addr) (h : Heap) (out : Buffer) :
  exists pre,
    snd (repl.loop range ParseProgram Eval l1 env h out)
    = pre +:+ repl.PROMPT
    /\ repl.loop range ParseProgram Eval (l1 ++ l2)%list env h out
       = repl.loop range ParseProgram Eval l2 env
           (fst (repl.loop range ParseProgram Eval l1 env h out)) pre.
Proof.
  revert h out. induction l1 as [|line l1 IH]; intros h out.
  - exists out. split; reflexivity.
  - change ((line :: l1) ++ l2)%list with (line :: (l1 ++ l2))%list.
    rewrite !loop_cons. apply IH.
Qed.

End Sessions.

(** X12. The REPL only appends to what is written: the heap that a session
    leaves does not depend on the text written before it, and the text after
    the session is the text before it followed by what the session writes
    on an empty writer. What a session writes ends with the prompt. *)
Theorem repl_appends (range : list string -> list string)
        (ParseProgram : string -> ast.Program * list string)
        (Eval : ast.Program -> addr -> Heap -> option Object * Heap)
        (lines : list string) (env : addr) (h : Heap) (out : Buffer) :
  repl.loop range ParseProgram Eval lines env h out
  = (fst (repl.loop range ParseProgram Eval lines env h ""),
     out +:+ snd (repl.loop range ParseProgram Eval lines env h ""))
  /\ exists pre,
       snd (repl.loop range ParseProgram Eval lines env h out)
       = out +:+ pre +:+ repl.PROMPT.
Proof.
  split; [apply loop_appends |].
  destruct (loop_app range ParseProgram Eval lines [] env h "")
    as (pre & Hpre & _).
  exists pre. rewrite loop_appends. simpl. now rewrite Hpre.
Qed.


(** X14. When every line of a session has diagnostics, the session leaves
    the heap of environments as it was, whatever the evaluator is, and
    writes, for each line, the prompt, the heading and the diagnostics of
    the line, and the prompt at the end. *)
Theorem repl_only_diagnostics (range : list string -> list string)
        (ParseProgram : string -> ast.Program * list string)
        (Eval Eval' : ast.Program -> addr -> Heap -> option Object * Heap)
        (lines : list string) (env : addr) (h : Heap) (out : Buffer) :
  (forall line, line ∈ lines -> snd (ParseProgram line) <> []) ->
  repl.loop range ParseProgram Eval lines env h out
  = (h, out
        +:+ String.concat ""
              (map (fun line =>
                      repl.PROMPT +:+ "Parser errors:" +:+ repl.newline
                      +:+ String.concat ""
                            (map (fun msg => repl.tab +:+ msg
                                             +:+ repl.newline)
                                 (snd (ParseProgram line))))
                   lines)
        +:+ repl.PROMPT)
  /\ repl.loop range ParseProgram Eval lines env h out
     = repl.loop range ParseProgram Eval' lines env h out.
Proof.
  intros Hall.
  assert (Hturn : forall E line, line ∈ lines ->
            turn range ParseProgram E line env h
            = (h, "Parser errors:" +:+ repl.newline
                  +:+ String.concat ""
                        (map (fun msg => repl.tab +:+ msg +:+ repl.newline)
                             (snd (ParseProgram line))))).
  { intros E line Hin. specialize (Hall line Hin). unfold turn.
    destruct (ParseProgram line) as [program [|msg errors]];
      [now contradiction Hall | reflexivity]. }
  assert (Hloop : forall E out,
            repl.loop range ParseProgram E lines env h out
            = (h, out
                  +:+ String.concat ""
                        (map (fun line =>
                                repl.PROMPT +:+ "Parser errors:"
                                +:+ repl.newline
                                +:+ String.concat ""
                                      (map (fun msg => repl.tab +:+ msg
                                                       +:+ repl.newline)
                                           (snd (ParseProgram line))))
                             lines)
                  +:+ repl.PROMPT)).
  { intros E. clear Hall. induction lines as [|line lines IH]; intros out'.
    - reflexivity.
    - rewrite loop_cons, (Hturn E line) by apply list_elem_of_here.
      simpl fst. simpl snd.
      rewrite IH by (intros E' l Hl; apply Hturn;
                     now apply list_elem_of_further).
      f_equal. rewrite !append_assoc. f_equal.
      destruct lines as [|line' lines]; simpl.
      + now rewrite !append_assoc.
      + now rewrite !append_assoc. }
  split; [apply Hloop |]. now rewrite !Hloop.
Qed.

Lemma repl_only_diagnostics_witness :
  fst (repl.loop (fun l => l) repl_examples.ParseProgram repl_examples.Eval
         ["let"; "let"] 0 env_examples.heap "")
  = env_examples.heap.
Proof.
  destruct (repl_only_diagnostics (fun l => l)
              repl_examples.ParseProgram repl_examples.Eval
              repl_examples.Eval_nothing ["let"; "let"] 0
              env_examples.heap "") as [H _].
  - intros line Hin.
    apply elem_of_cons in Hin as [-> | Hin]; [discriminate |].
    apply elem_of_cons in Hin as [-> | Hin]; [discriminate |].
    now apply elem_of_nil in Hin.
  - rewrite H. reflexivity.
Defined.

(** ** Parentheses in the text of a node *)

Lemma scan_app (d : nat) (a b : string) :
  scan d (a +:+ b)
  = match scan d a with
    | Some d' => scan d' b
    | None => None
    end.
Proof.
  revert d. induction a as [|c a IH]; intros d; [reflexivity |].
  rewrite append_cons. simpl.
  destruct (Ascii.eqb c "("); [apply IH |].
  destruct (Ascii.eqb c ")"); [| apply IH].
  destruct d; [reflexivity | apply IH].
Qed.

Lemma scan_paren_free (s : string) :
  paren_free s = true -> forall d, scan d s = Some d.
Proof.
  induction s as [|c s IH]; simpl; [reflexivity |].
  intros [[H1 H2]%andb_prop Hs]%andb_prop d.
  apply negb_true_iff in H1, H2. rewrite H1, H2. now apply IH.
Qed.

Lemma scan_concat (sep : string) (l : list string) :
  (forall d, scan d sep = Some d) ->
  Forall (fun s => forall d, scan d s = Some d) l ->
  forall d, scan d (String.concat sep l) = Some d.
Proof.
  intros Hsep. induction 1 as [|s l Hs Hl IH]; intros d; [reflexivity |].
  destruct l as [|s' l]; [apply Hs |].
  change (String.concat sep (s :: s' :: l))
    with (s +:+ sep +:+ String.concat sep (s' :: l)).
  rewrite scan_app, Hs, scan_app, Hsep. apply IH.
Qed.

Lemma Forall_map_bool {A B : Type} (f : A -> B) (p : A -> bool)
      (Q : B -> Prop) (l : list A) :
  Forall (fun x => p x = true -> Q (f x)) l ->
  forallb p l = true -> Forall Q (map f l).
Proof.
  induction 1 as [|x l Hx _ IH]; simpl; [constructor |].
  intros [Hp Hl]%andb_prop. constructor; auto.
Qed.

Lemma Forall_range {Q : string -> Prop} (range : list string -> list string)
      (l : list string) :
  range_ok range -> Forall Q l -> Forall Q (range l).
Proof.
  intros Hr Hl. apply Forall_forall. intros x Hx.
  rewrite Forall_forall in Hl. apply Hl.
  apply list_elem_of_In. apply list_elem_of_In in Hx.
  eapply Permutation_in; [apply Hr | exact Hx].
Qed.

Ltac scan_known :=
  match goal with
  | H : forall d, scan d ?s = Some d |- context [scan _ ?s] => rewrite H
  | H : paren_free ?s = true |- context [scan _ ?s] =>
      rewrite (scan_paren_free s H)
  end.

Ltac scan_text :=
  unfold BufferString, WriteString, NewBuffer;
  rewrite ?Join_concat, ?WriteString_fold;
  repeat first [ rewrite scan_app | scan_known | progress simpl ].

Section Balanced.

Variable range : list string -> list string.
Hypothesis Hrange : range_ok range.

Lemma scan_String :
  (forall e, Expression_paren_free e = true ->
             forall d, scan d (ast.Expression_String range e) = Some d)
  /\ (forall s, Statement_paren_free s = true ->
                forall d, scan d (ast.Statement_String range s) = Some d)
  /\ (forall b, BlockStatement_paren_free b = true ->
                forall d, scan d (ast.BlockStatement_String range b)
                          = Some d).
Proof.
  apply induction.Nodes_induction.
  - intros i H d. now apply scan_paren_free.
  - intros t v H d. now apply scan_paren_free.
  - intros t op r IH [Hop Hr]%andb_prop d. specialize (IH Hr).
    simpl. scan_text. reflexivity.
  - intros t l op r IHl IHr [[Hl Hop]%andb_prop Hr]%andb_prop d.
    specialize (IHl Hl). specialize (IHr Hr). simpl. scan_text. reflexivity.
  - intros t v H d. now apply scan_paren_free.
  - intros t c b alt IHc IHb IHa [[Hc Hb]%andb_prop Ha]%andb_prop d.
    specialize (IHc Hc). specialize (IHb Hb).
    destruct alt as [a|]; simpl in IHa |- *.
    + specialize (IHa Ha). scan_text. reflexivity.
    + scan_text. reflexivity.
  - intros t ps body IH [[Ht Hps]%andb_prop Hb]%andb_prop d.
    specialize (IH Hb).
    assert (Hj : forall d,
               scan d (String.concat ", " (map ast.Identifier_String ps))
               = Some d).
    { apply scan_concat; [reflexivity |].
      apply Forall_map_bool
        with (p := fun i => paren_free (ast.IdentValue i)); [| exact Hps].
      apply Forall_forall. intros i _ Hi. now apply scan_paren_free. }
    simpl. scan_text. reflexivity.
  - intros t f args IHf IHargs [Hf Hargs]%andb_prop d. specialize (IHf Hf).
    assert (Hj : forall d,
               scan d (String.concat ", "
                         (map (ast.Expression_String range) args))
               = Some d).
    { apply scan_concat; [reflexivity |].
      now apply Forall_map_bool with (p := Expression_paren_free). }
    simpl. scan_text. reflexivity.
  - intros t v H d. now apply scan_paren_free.
  - intros t els IH H d.
    assert (Hj : forall d,
               scan d (String.concat ", "
                         (map (ast.Expression_String range) els))
               = Some d).
    { apply scan_concat; [reflexivity |].
      now apply Forall_map_bool with (p := Expression_paren_free). }
    simpl. scan_text. reflexivity.
  - intros t l i IHl IHi [Hl Hi]%andb_prop d.
    specialize (IHl Hl). specialize (IHi Hi). simpl. scan_text. reflexivity.
  - intros t pairs IH H d.
    assert (Hj : forall d,
               scan d (String.concat ", "
                         (range
                            (map (fun kv =>
                                    ast.Expression_String range (fst kv)
                                    +:+ ":"
                                    +:+ ast.Expression_String range (snd kv))
                                 pairs)))
               = Some d).
    { apply scan_concat; [reflexivity |].
      apply Forall_range; [exact Hrange |].
      apply Forall_map_bool
        with (p := fun kv => Expression_paren_free (fst kv)
                             && Expression_paren_free (snd kv));
        [| exact H].
      eapply Forall_impl; [exact IH |].
      intros [k v] [IHk IHv] [Hk Hv]%andb_prop d'. simpl in *.
      specialize (IHk Hk). specialize (IHv Hv). scan_text. reflexivity. }
    simpl. scan_text. reflexivity.
  - intros t n v IH [[Ht Hn]%andb_prop Hv]%andb_prop d.
    destruct v as [e|]; simpl in IH |- *.
    + specialize (IH Hv). scan_text. reflexivity.
    + scan_text. reflexivity.
  - intros t v IH [Ht Hv]%andb_prop d.
    destruct v as [e|]; simpl in IH |- *.
    + specialize (IH Hv). scan_text. reflexivity.
    + scan_text. reflexivity.
  - intros t v IH H d. destruct v as [e|]; simpl in *;
      [now apply IH | reflexivity].
  - intros b IH H d. now apply IH.
  - intros t stmts IH H d. simpl. rewrite WriteString_fold, append_nil_l.
    apply scan_concat; [reflexivity |].
    now apply Forall_map_bool with (p := Statement_paren_free).
Qed.

End Balanced.

(** X15. When no name, operator or token literal of a node has a
    parenthesis, the parentheses of the text of the node are balanced: every
    close parenthesis closes an open one, and none is left open. This holds
    for expressions, statements, blocks and programs, in whatever order the
    pairs of hash literals are visited. *)
Theorem String_balanced (range : list string -> list string)
        (e : ast.Expression) (s : ast.Statement) (b : ast.BlockStatement)
        (p : ast.Program) :
  range_ok range ->
  (Expression_paren_free e = true ->
   balanced (ast.Expression_String range e))
  /\ (Statement_paren_free s = true ->
      balanced (ast.Statement_String range s))
  /\ (BlockStatement_paren_free b = true ->
      balanced (ast.BlockStatement_String range b))
  /\ (Program_paren_free p = true ->
      balanced (ast.Program_String range p)).
Proof.
  intros Hr. destruct (scan_String range Hr) as (HE & HS & HB).
  unfold balanced.
  split; [intros H; now apply HE |].
  split; [intros H; now apply HS |].
  split; [intros H; now apply HB |].
  intros H. unfold ast.Program_String.
  rewrite WriteString_fold, append_nil_l.
  apply scan_concat; [reflexivity |].
  apply Forall_map_bool with (p := Statement_paren_free); [| exact H].
  apply Forall_forall. intros x _ Hx. now apply HS.
Qed.

Lemma String_balanced_witness :
  balanced (ast.Expression_String object_examples.in_reverse
              ast_examples.index_product)
  /\ balanced (ast.Statement_String object_examples.in_reverse
                 ast_examples.let_x).
Proof.
  destruct (String_balanced object_examples.in_reverse
              ast_examples.index_product ast_examples.let_x
              (ast.Block (ast_examples.tok token.LBRACE "{") [])
              {| ast.Statements := [] |}) as (HE & HS & _).
  - intros l. symmetry. apply Permutation_rev.
  - split; [apply HE | apply HS]; reflexivity.
Defined.

(** A string literal with a parenthesis is written as it is. *)
Example String_unbalanced :
  ~ balanced (ast.Expression_String (fun l => l)
                (ast_examples.infix
                   (ast.StringLiteral (ast_examples.tok token.STRING ")") ")")
                   "+" (ast_examples.ident "a"))).
Proof. vm_compute. discriminate. Qed.

Lemma concat_empty_app (l1 l2 : list string) :
  String.concat "" (l1 ++ l2)%list
  = String.concat "" l1 +:+ String.concat "" l2.
Proof.
  rewrite <- (append_nil_l (String.concat "" (l1 ++ l2)%list)).
  rewrite <- (append_nil_l (String.concat "" l1 +:+ String.concat "" l2)).
  rewrite <- append_assoc.
  rewrite <- !WriteString_fold. now rewrite fold_left_app.
Qed.

Lemma concat_empty_cons (s : string) (l : list string) :
  String.concat "" (s :: l) = s +:+ String.concat "" l.
Proof.
  destruct l as [|s' l]; [now rewrite append_nil_r | reflexivity].
Qed.

(** X16. The text of a program, and of a block, is the texts of its
    statements one after the other with nothing between them: it is empty
    for no statement, and for a statement followed by others it is the text
    of the statement followed by the text of the others. Hence the text of
    two sequences of statements put together is the text of the first
    followed by the text of the second. *)
Theorem String_statements_concatenate (range : list string -> list string)
        (t : token.Token) (s : ast.Statement) (s1 s2 : list ast.Statement) :
  ast.Program_String range {| ast.Statements := [] |} = ""
  /\ ast.Program_String range {| ast.Statements := s :: s1 |}
     = ast.Statement_String range s
       +:+ ast.Program_String range {| ast.Statements := s1 |}
  /\ ast.Program_String range {| ast.Statements := (s1 ++ s2)%list |}
     = ast.Program_String range {| ast.Statements := s1 |}
       +:+ ast.Program_String range {| ast.Statements := s2 |}
  /\ ast.BlockStatement_String range (ast.Block t []) = ""
  /\ ast.BlockStatement_String range (ast.Block t (s :: s1))
     = ast.Statement_String range s
       +:+ ast.BlockStatement_String range (ast.Block t s1)
  /\ ast.BlockStatement_String range (ast.Block t (s1 ++ s2)%list)
     = ast.BlockStatement_String range (ast.Block t s1)
       +:+ ast.BlockStatement_String range (ast.Block t s2).
Proof.
  unfold ast.Program_String.
  cbn [ast.Statements ast.BlockStatement_String].
  rewrite !WriteString_fold, !append_nil_l, map_app, concat_empty_app.
  cbn [map]. rewrite concat_empty_cons.
  repeat split; reflexivity.
Qed.

(** The statements [a] and [b] are written as the statement [ab] is. *)
Example String_statements_run_together :
  ast.Program_String (fun l => l)
    {| ast.Statements :=
         [ast.ExpressionStatement (ast_examples.tok token.IDENT "a")
            (Some (ast_examples.ident "a"));
          ast.ExpressionStatement (ast_examples.tok token.IDENT "b")
            (Some (ast_examples.ident "b"))] |}
  = ast.Program_String (fun l => l)
      {| ast.Statements :=
           [ast.ExpressionStatement (ast_examples.tok token.IDENT "ab")
              (Some (ast_examples.ident "ab"))] |}.
Proof. reflexivity. Qed.

(** ** Absent parts and empty collections *)

(** X17. The parts of a node that may be absent. A [let] without value is
    written as the token literal, a space, the name and " = ;"; a [return]
    without value as the token literal and " ;"; an expression statement
    without expression as nothing, and with its expression as the
    expression; an [if] without alternative as "if", the
    condition, a space and the consequence, with no "else". With the part
    present, its text comes where it belongs. *)
Theorem String_absent_parts (range : list string -> list string)
        (t : token.Token) (n : ast.Identifier) (v c : ast.Expression)
        (b a : ast.BlockStatement) :
  ast.Statement_String range (ast.LetStatement t n None)
  = token.Literal t +:+ " " +:+ ast.IdentValue n +:+ " = " +:+ ";"
  /\ ast.Statement_String range (ast.LetStatement t n (Some v))
     = token.Literal t +:+ " " +:+ ast.IdentValue n +:+ " = "
       +:+ ast.Expression_String range v +:+ ";"
  /\ ast.Statement_String range (ast.ReturnStatement t None)
     = token.Literal t +:+ " " +:+ ";"
  /\ ast.Statement_String range (ast.ReturnStatement t (Some v))
     = token.Literal t +:+ " " +:+ ast.Expression_String range v +:+ ";"
  /\ ast.Statement_String range (ast.ExpressionStatement t None) = ""
  /\ ast.Statement_String range (ast.ExpressionStatement t (Some v))
     = ast.Expression_String range v
  /\ ast.Expression_String range (ast.IfExpression t c b None)
     = "if" +:+ ast.Expression_String range c +:+ " "
       +:+ ast.BlockStatement_String range b
  /\ ast.Expression_String range (ast.IfExpression t c b (Some a))
     = "if" +:+ ast.Expression_String range c +:+ " "
       +:+ ast.BlockStatement_String range b +:+ "else"
       +:+ ast.BlockStatement_String range a.
Proof.
  repeat split; simpl; unfold BufferString, WriteString, NewBuffer,
    ast.Identifier_String;
    now rewrite ?append_nil_l, ?append_assoc.
Qed.

(** X18. Empty collections, in whatever order maps are visited: the array
    without element is written "[]" and the hash without pair "{}", as
    objects and as literals; a call without argument is the text of the
    function and "()"; a function literal without parameter is the token
    literal, "() " and the body. *)
Theorem empty_collections (range : list string -> list string)
        (t : token.Token) (f : ast.Expression) (body : ast.BlockStatement) :
  range_ok range ->
  Inspect range (Array []) = "[]"
  /\ Inspect range (Hash []) = "{}"
  /\ ast.Expression_String range (ast.ArrayLiteral t []) = "[]"
  /\ ast.Expression_String range (ast.HashLiteral t []) = "{}"
  /\ ast.Expression_String range (ast.CallExpression t f [])
     = ast.Expression_String range f +:+ "()"
  /\ ast.Expression_String range (ast.FunctionLiteral t [] body)
     = token.Literal t +:+ "() " +:+ ast.BlockStatement_String range body.
Proof.
  intros Hr.
  assert (Hnil : range [] = []) by (apply range_ok_short; [exact Hr | simpl; lia]).
  repeat split; simpl; rewrite ?Hnil; simpl;
    unfold BufferString, WriteString, NewBuffer;
    rewrite ?append_nil_l, ?append_assoc, ?append_nil_r; reflexivity.
Qed.

Lemma empty_collections_witness :
  Inspect object_examples.in_reverse (Hash []) = "{}".
Proof.
  destruct (empty_collections object_examples.in_reverse
              (ast_examples.tok token.LBRACKET "[")
              (ast_examples.ident "f")
              (ast.Block (ast_examples.tok token.LBRACE "{") []))
    as (_ & H & _).
  - intros l. symmetry. apply Permutation_rev.
  - exact H.
Defined.

(** ** The text of an operator expression determines its syntax *)

Lemma word_char_facts (c : ascii) :
  is_word_char c = true ->
  is_delimiter c = false /\ c <> "-"%char /\ c <> "!"%char.
Proof.
  destruct c as [[] [] [] [] [] [] [] []]; vm_compute; intros H;
    try discriminate H; repeat split; discriminate.
Qed.

Lemma letter_not_digit (c : ascii) : is_letter c = true -> is_digit c = false.
Proof.
  destruct c as [[] [] [] [] [] [] [] []]; vm_compute; intros H;
    solve [discriminate H | reflexivity].
Qed.

Lemma all_chars_impl (p q : ascii -> bool) (s : string) :
  (forall c, p c = true -> q c = true) ->
  all_chars p s = true -> all_chars q s = true.
Proof.
  intros Hpq. induction s as [|c s IH]; simpl; [reflexivity |].
  intros [Hc Hs]%andb_prop. rewrite (Hpq c Hc). now apply IH.
Qed.

Lemma word_no_delimiter (s : string) :
  all_chars is_word_char s = true ->
  all_chars (fun c => negb (is_delimiter c)) s = true.
Proof.
  apply all_chars_impl. intros c Hc.
  now rewrite (proj1 (word_char_facts c Hc)).
Qed.

(** Two texts without delimiter, each followed by nothing or by a
    delimiter: when the whole texts are equal, so are the parts. *)
Lemma lexeme_split (a b x y : string) :
  all_chars (fun c => negb (is_delimiter c)) a = true ->
  all_chars (fun c => negb (is_delimiter c)) b = true ->
  closes x = true -> closes y = true ->
  a +:+ x = b +:+ y -> a = b /\ x = y.
Proof.
  revert b. induction a as [|c a IH]; intros [|c' b] Ha Hb Hx Hy H.
  - now rewrite !append_nil_l in H.
  - rewrite append_nil_l, append_cons in H. subst x. simpl in Hx, Hb.
    apply andb_prop in Hb as [Hc _]. rewrite Hx in Hc. discriminate Hc.
  - rewrite append_nil_l, append_cons in H. subst y. simpl in Hy, Ha.
    apply andb_prop in Ha as [Hc _]. rewrite Hy in Hc. discriminate Hc.
  - rewrite !append_cons in H. injection H as -> H.
    simpl in Ha, Hb.
    apply andb_prop in Ha as [_ Ha]. apply andb_prop in Hb as [_ Hb].
    destruct (IH b Ha Hb Hx Hy H) as [-> ->]. now split.
Qed.

Lemma ident_ok_word (s : string) :
  ident_ok s = true ->
  exists c w, s = String c w /\ is_letter c = true
              /\ all_chars is_word_char w = true.
Proof.
  unfold ident_ok. intros [H _]%andb_prop.
  destruct s as [|c w]; [discriminate H |].
  apply andb_prop in H as [Hc Hw]. now exists c, w.
Qed.

Lemma digits_ok_word (s : string) :
  digits_ok s = true ->
  exists c w, s = String c w /\ is_digit c = true
              /\ all_chars is_word_char w = true.
Proof.
  destruct s as [|c w]; simpl; [discriminate |].
  intros [Hc Hw]%andb_prop. exists c, w. repeat split; trivial.
  revert Hw. apply all_chars_impl. intros c' Hc'. unfold is_word_char.
  rewrite Hc'. apply orb_true_r.
Qed.

Lemma infix_operator_lexeme (op : string) :
  op ∈ infix_operators ->
  all_chars (fun c => negb (is_delimiter c)) op = true.
Proof.
  unfold infix_operators. intros H.
  repeat (apply elem_of_cons in H as [-> | H]; [reflexivity |]).
  now apply elem_of_nil in H.
Qed.

Lemma prefix_operator_cases (op : string) :
  op ∈ prefix_operators -> op = "!" \/ op = "-".
Proof.
  unfold prefix_operators. intros H.
  apply elem_of_cons in H as [-> | H]; [now left |].
  apply elem_of_cons in H as [-> | H]; [now right |].
  now apply elem_of_nil in H.
Qed.

Section Reconstruction.

Variable range : list string -> list string.

#[local] Abbreviation text := (ast.Expression_String range).

(** The text of an operator expression starts with a letter or a digit,
    when the expression is a name, a number or a truth value, and with an
    open parenthesis otherwise. *)
Lemma String_first_char (e : ast.Expression) :
  Expression_lexemes e = true -> operator_expression e = true ->
  exists c s, text e = String c s
              /\ (is_word_char c = true \/ c = "("%char).
Proof.
  intros Hl Ho. destruct e; try discriminate Ho; simpl in Hl.
  - destruct (ident_ok_word _ Hl) as (c & w & E & Hc & _).
    exists c, w. split; [exact E |]. left. unfold is_word_char.
    now rewrite Hc.
  - apply andb_prop in Hl as [Hd _].
    destruct (digits_ok_word _ Hd) as (c & w & E & Hc & _).
    exists c, w. split; [exact E |]. left. unfold is_word_char.
    rewrite Hc. apply orb_true_r.
  - eexists _, _. rewrite String_Prefix, append_cons, append_nil_l.
    split; [reflexivity | now right].
  - eexists _, _. rewrite String_Infix, append_cons, append_nil_l.
    split; [reflexivity | now right].
  - apply bool_decide_eq_true in Hl. simpl. rewrite Hl.
    destruct Value; eexists _, _; (split; [reflexivity | now left]).
  - eexists _, _. rewrite String_Index, append_cons, append_nil_l.
    split; [reflexivity | now right].
Qed.

(** The text of a name, a number or a truth value is a word. *)
Lemma String_atom_word (e : ast.Expression) :
  Expression_lexemes e = true ->
  match e with
  | ast.EIdentifier _ | ast.IntegerLiteral _ _ | ast.Boolean _ _ => True
  | _ => False
  end ->
  all_chars is_word_char (text e) = true.
Proof.
  intros Hl Ha. destruct e; try contradiction; simpl in Hl |- *.
  - destruct (ident_ok_word _ Hl) as (c & w & E & Hc & Hw).
    unfold ast.Identifier_String. rewrite E. simpl.
    unfold is_word_char at 1. now rewrite Hc, Hw.
  - apply andb_prop in Hl as [Hd _].
    destruct (digits_ok_word _ Hd) as (c & w & E & Hc & Hw).
    rewrite E. simpl. unfold is_word_char at 1.
    now rewrite Hc, Hw, orb_true_r.
  - apply bool_decide_eq_true in Hl. rewrite Hl. now destruct Value.
Qed.

(** Two of them with the same text have the same syntax. *)
Lemma String_atom_same (e1 e2 : ast.Expression) :
  Expression_lexemes e1 = true -> Expression_lexemes e2 = true ->
  match e1 with
  | ast.EIdentifier _ | ast.IntegerLiteral _ _ | ast.Boolean _ _ => True
  | _ => False
  end ->
  match e2 with
  | ast.EIdentifier _ | ast.IntegerLiteral _ _ | ast.Boolean _ _ => True
  | _ => False
  end ->
  text e1 = text e2 -> Expression_syntax e1 = Expression_syntax e2.
Proof.
  intros H1 H2 A1 A2 E.
  destruct e1 as [i1 | t1 v1 | | | t1 v1 | | | | | | |]; try contradiction;
    destruct e2 as [i2 | t2 v2 | | | t2 v2 | | | | | | |]; try contradiction;
    simpl in H1, H2, E |- *; unfold ast.Identifier_String in E.
  - unfold Identifier_syntax. now rewrite E.
  - exfalso. apply andb_prop in H2 as [Hd _].
    destruct (ident_ok_word _ H1) as (c & w & E1 & Hc & _).
    destruct (digits_ok_word _ Hd) as (c' & w' & E2 & Hc' & _).
    rewrite E1, E2 in E. injection E as -> _.
    apply letter_not_digit in Hc. congruence.
  - exfalso. apply bool_decide_eq_true in H2. rewrite H2 in E.
    rewrite E in H1. destruct v2; vm_compute in H1; discriminate H1.
  - exfalso. apply andb_prop in H1 as [Hd _].
    destruct (ident_ok_word _ H2) as (c & w & E1 & Hc & _).
    destruct (digits_ok_word _ Hd) as (c' & w' & E2 & Hc' & _).
    rewrite E1, E2 in E. injection E as -> _.
    apply letter_not_digit in Hc. congruence.
  - apply andb_prop in H1 as [_ Hv1]. apply andb_prop in H2 as [_ Hv2].
    apply bool_decide_eq_true in Hv1, Hv2. rewrite E in Hv1.
    rewrite Hv1 in Hv2. injection Hv2 as ->.
    unfold literal_only. now rewrite E.
  - exfalso. apply andb_prop in H1 as [Hd _].
    apply bool_decide_eq_true in H2. rewrite E, H2 in Hd.
    destruct v2; vm_compute in Hd; discriminate Hd.
  - exfalso. apply bool_decide_eq_true in H1. rewrite H1 in E.
    rewrite <- E in H2. destruct v1; vm_compute in H2; discriminate H2.
  - exfalso. apply andb_prop in H2 as [Hd _].
    apply bool_decide_eq_true in H1. rewrite <- E, H1 in Hd.
    destruct v1; vm_compute in Hd; discriminate Hd.
  - apply bool_decide_eq_true in H1, H2. unfold literal_only.
    rewrite E. f_equal. rewrite H1, H2 in E.
    destruct v1, v2; solve [reflexivity | discriminate E].
Qed.

Ltac flatten H :=
  rewrite ?String_Prefix, ?String_Infix, ?String_Index in H;
  rewrite ?append_assoc in H;
  repeat (rewrite append_cons in H || rewrite append_nil_l in H).

Lemma String_prefix_free :
  forall e1,
    Expression_lexemes e1 = true -> operator_expression e1 = true ->
    forall e2 x y,
      Expression_lexemes e2 = true -> operator_expression e2 = true ->
      closes x = true -> closes y = true ->
      text e1 +:+ x = text e2 +:+ y ->
      Expression_syntax e1 = Expression_syntax e2 /\ x = y.
Proof.
  assert (Hatom : forall e1 e2 x y,
    Expression_lexemes e1 = true -> Expression_lexemes e2 = true ->
    match e1 with
    | ast.EIdentifier _ | ast.IntegerLiteral _ _ | ast.Boolean _ _ => True
    | _ => False
    end ->
    match e2 with
    | ast.EIdentifier _ | ast.IntegerLiteral _ _ | ast.Boolean _ _ => True
    | _ => False
    end ->
    closes x = true -> closes y = true ->
    text e1 +:+ x = text e2 +:+ y ->
    Expression_syntax e1 = Expression_syntax e2 /\ x = y).
  { intros e1 e2 x y H1 H2 A1 A2 Hx Hy E.
    destruct (lexeme_split (text e1) (text e2) x y) as [Et Exy]; trivial;
      try (apply word_no_delimiter; now apply String_atom_word).
    split; [now apply String_atom_same | exact Exy]. }
  assert (Hmix : forall e1 x s,
    Expression_lexemes e1 = true ->
    match e1 with
    | ast.EIdentifier _ | ast.IntegerLiteral _ _ | ast.Boolean _ _ => True
    | _ => False
    end ->
    text e1 +:+ x = String "(" s -> False).
  { intros e1 x s H1 A1 E.
    pose proof (String_atom_word e1 H1 A1) as Hw.
    assert (Ho : operator_expression e1 = true) by (destruct e1; easy).
    destruct (String_first_char e1 H1 Ho) as (c & w & Ec & _).
    rewrite Ec in Hw, E. rewrite append_cons in E. injection E as -> _.
    simpl in Hw. discriminate Hw. }
  apply (induction.Expression_induction
           (fun e1 =>
              Expression_lexemes e1 = true -> operator_expression e1 = true ->
              forall e2 x y,
                Expression_lexemes e2 = true -> operator_expression e2 = true ->
                closes x = true -> closes y = true ->
                text e1 +:+ x = text e2 +:+ y ->
                Expression_syntax e1 = Expression_syntax e2 /\ x = y)
           (fun _ => True) (fun _ => True)); try (intros; exact I);
    try (intros; discriminate).
  - (* a name *)
    intros i H1 _ e2 x y H2 O2 Hx Hy E.
    destruct e2; try discriminate O2;
      try (now apply Hatom);
      exfalso; flatten E; eapply (Hmix (ast.EIdentifier i)); eauto; exact I.
  - (* a number *)
    intros t v H1 _ e2 x y H2 O2 Hx Hy E.
    destruct e2; try discriminate O2;
      try (now apply Hatom);
      exfalso; flatten E; eapply (Hmix (ast.IntegerLiteral t v)); eauto;
      exact I.
  - (* a prefix operator *)
    intros t op r IH H1 O1 e2 x y H2 O2 Hx Hy E.
    simpl in H1, O1. apply andb_prop in H1 as [Hop Hr].
    apply bool_decide_eq_true, prefix_operator_cases in Hop.
    destruct e2 as [i2 | t2 v2 | t2 op2 r2 | t2 l2 op2 r2 | t2 v2 | | | | |
                    | t2 l2 i2 |]; try discriminate O2.
    + exfalso. symmetry in E. flatten E.
      eapply (Hmix (ast.EIdentifier i2)); eauto; exact I.
    + exfalso. symmetry in E. flatten E.
      eapply (Hmix (ast.IntegerLiteral t2 v2)); eauto; exact I.
    + simpl in H2, O2. apply andb_prop in H2 as [Hop2 Hr2].
      apply bool_decide_eq_true, prefix_operator_cases in Hop2.
      flatten E. injection E as E.
      destruct Hop as [-> | ->], Hop2 as [-> | ->]; flatten E;
        try discriminate E; injection E as E;
        apply (IH Hr O1 r2) in E as [Es Exy]; trivial;
        injection Exy as ->; simpl; now rewrite Es.
    + exfalso. simpl in H2, O2.
      apply andb_prop in H2 as [[Hl2 _]%andb_prop _].
      apply andb_prop in O2 as [Ol2 _].
      destruct (String_first_char l2 Hl2 Ol2) as (c & s & Ec & Hc).
      flatten E. injection E as E. rewrite Ec in E.
      destruct Hop as [-> | ->]; flatten E; injection E as <- _;
        destruct Hc as [Hc | Hc]; try discriminate Hc;
        apply word_char_facts in Hc as (_ & Hm & Hb); congruence.
    + exfalso. symmetry in E. flatten E.
      eapply (Hmix (ast.Boolean t2 v2)); eauto; exact I.
    + exfalso. simpl in H2, O2.
      apply andb_prop in H2 as [Hl2 _]. apply andb_prop in O2 as [Ol2 _].
      destruct (String_first_char l2 Hl2 Ol2) as (c & s & Ec & Hc).
      flatten E. injection E as E. rewrite Ec in E.
      destruct Hop as [-> | ->]; flatten E; injection E as <- _;
        destruct Hc as [Hc | Hc]; try discriminate Hc;
        apply word_char_facts in Hc as (_ & Hm & Hb); congruence.
  - (* an infix operator *)
    intros t l op r IHl IHr H1 O1 e2 x y H2 O2 Hx Hy E.
    simpl in H1, O1. apply andb_prop in H1 as [[Hl Hop]%andb_prop Hr].
    apply andb_prop in O1 as [Ol Or].
    apply bool_decide_eq_true in Hop.
    destruct e2 as [i2 | t2 v2 | t2 op2 r2 | t2 l2 op2 r2 | t2 v2 | | | | |
                    | t2 l2 i2 |]; try discriminate O2.
    + exfalso. symmetry in E. flatten E.
      eapply (Hmix (ast.EIdentifier i2)); eauto; exact I.
    + exfalso. symmetry in E. flatten E.
      eapply (Hmix (ast.IntegerLiteral t2 v2)); eauto; exact I.
    + exfalso. simpl in H2. apply andb_prop in H2 as [Hop2 _].
      apply bool_decide_eq_true, prefix_operator_cases in Hop2.
      destruct (String_first_char l Hl Ol) as (c & s & Ec & Hc).
      flatten E. injection E as E. rewrite Ec in E.
      destruct Hop2 as [-> | ->]; flatten E; injection E as -> _;
        destruct Hc as [Hc | Hc]; try discriminate Hc;
        apply word_char_facts in Hc as (_ & Hm & Hb); congruence.
    + simpl in H2, O2. apply andb_prop in H2 as [[Hl2 Hop2]%andb_prop Hr2].
      apply andb_prop in O2 as [Ol2 Or2].
      apply bool_decide_eq_true in Hop2.
      flatten E. injection E as E.
      apply (IHl Hl Ol l2) in E as [Esl E]; trivial.
      injection E as E.
      apply lexeme_split in E as [-> E];
        try (now apply infix_operator_lexeme); trivial.
      injection E as E.
      apply (IHr Hr Or r2) in E as [Esr E]; trivial.
      injection E as ->. simpl. now rewrite Esl, Esr.
    + exfalso. symmetry in E. flatten E.
      eapply (Hmix (ast.Boolean t2 v2)); eauto; exact I.
    + exfalso. simpl in H2, O2. apply andb_prop in H2 as [Hl2 Hi2].
      apply andb_prop in O2 as [Ol2 Oi2].
      flatten E. injection E as E.
      apply (IHl Hl Ol l2) in E as [_ E]; trivial. discriminate E.
  - (* a truth value *)
    intros t v H1 _ e2 x y H2 O2 Hx Hy E.
    destruct e2; try discriminate O2;
      try (now apply Hatom);
      exfalso; flatten E; eapply (Hmix (ast.Boolean t v)); eauto; exact I.
  - (* an index operator *)
    intros t l i IHl IHi H1 O1 e2 x y H2 O2 Hx Hy E.
    simpl in H1, O1. apply andb_prop in H1 as [Hl Hi].
    apply andb_prop in O1 as [Ol Oi].
    destruct e2 as [i2 | t2 v2 | t2 op2 r2 | t2 l2 op2 r2 | t2 v2 | | | | |
                    | t2 l2 i2 |]; try discriminate O2.
    + exfalso. symmetry in E. flatten E.
      eapply (Hmix (ast.EIdentifier i2)); eauto; exact I.
    + exfalso. symmetry in E. flatten E.
      eapply (Hmix (ast.IntegerLiteral t2 v2)); eauto; exact I.
    + exfalso. simpl in H2. apply andb_prop in H2 as [Hop2 _].
      apply bool_decide_eq_true, prefix_operator_cases in Hop2.
      destruct (String_first_char l Hl Ol) as (c & s & Ec & Hc).
      flatten E. injection E as E. rewrite Ec in E.
      destruct Hop2 as [-> | ->]; flatten E; injection E as -> _;
        destruct Hc as [Hc | Hc]; try discriminate Hc;
        apply word_char_facts in Hc as (_ & Hm & Hb); congruence.
    + exfalso. simpl in H2, O2.
      apply andb_prop in H2 as [[Hl2 _]%andb_prop _].
      apply andb_prop in O2 as [Ol2 _].
      flatten E. injection E as E.
      apply (IHl Hl Ol l2) in E as [_ E]; trivial. discriminate E.
    + exfalso. symmetry in E. flatten E.
      eapply (Hmix (ast.Boolean t2 v2)); eauto; exact I.
    + simpl in H2, O2. apply andb_prop in H2 as [Hl2 Hi2].
      apply andb_prop in O2 as [Ol2 Oi2].
      flatten E. injection E as E.
      apply (IHl Hl Ol l2) in E as [Esl E]; trivial.
      injection E as E.
      apply (IHi Hi Oi i2) in E as [Esi E]; trivial.
      injection E as ->. simpl. now rewrite Esl, Esi.
Qed.

(** Two operator expressions with the same text have the same syntax. *)
Lemma String_injective (e1 e2 : ast.Expression) :
  Expression_lexemes e1 = true -> operator_expression e1 = true ->
  Expression_lexemes e2 = true -> operator_expression e2 = true ->
  text e1 = text e2 -> Expression_syntax e1 = Expression_syntax e2.
Proof.
  intros H1 O1 H2 O2 E.
  apply (String_prefix_free e1 H1 O1 e2 "" ""); trivial.
  now rewrite !append_nil_r.
Qed.

End Reconstruction.



Example String_distinguishes_operators :
  ast.Expression_String object_examples.in_order
    (ast_examples.infix (ast_examples.ident "a") "+"
       (ast_examples.infix (ast_examples.ident "b") "*"
          (ast_examples.ident "c")))
  <> ast.Expression_String object_examples.in_order
       (ast_examples.infix
          (ast_examples.infix (ast_examples.ident "a") "+"
             (ast_examples.ident "b"))
          "*" (ast_examples.ident "c")).
Proof. vm_compute. discriminate. Qed.

